(** * The action interpreter of Tasks/Day1 (3-execute.ts and 3.1-execute.ts)

    A shallow embedding of the two [Exec] classes of the workshop: the
    chain of [Step] objects of 3-execute.ts and the tagged [Action] data of
    3.1-execute.ts, with the properties of the interpreter proved over it. *)

From Stdlib Require Import ZArith Bool.
From stdpp Require Import base option list strings gmap fin_maps.

Local Open Scope string_scope.
Local Open Scope Z_scope.

Set Warnings "-register-all".

(** ** JavaScript values

    The values that can sit in a criteria object (typed [any]) or reach the
    logger. Numbers are the integers: ids and ages are integers, and on them
    [===] is equality. Objects and functions are compared by reference. *)
Module JS.

Inductive ref : Type :=
| Intrinsic (name : string)   (* a built-in object, e.g. %Object.prototype% *)
| Allocated (addr : positive) (* any object or function made by the program *).

Inductive value : Type :=
| VUndefined
| VNull
| VBoolean (b : bool)
| VNumber (n : Z)
| VString (s : string)
| VObject (r : ref).

Definition ref_eqb (a b : ref) : bool :=
  match a, b with
  | Intrinsic x, Intrinsic y => String.eqb x y
  | Allocated x, Allocated y => Pos.eqb x y
  | _, _ => false
  end.

(** [x === y]: same type and same value, references for objects. *)
Definition strict_eq (x y : value) : bool :=
  match x, y with
  | VUndefined, VUndefined => true
  | VNull, VNull => true
  | VBoolean a, VBoolean b => Bool.eqb a b
  | VNumber a, VNumber b => Z.eqb a b
  | VString a, VString b => String.eqb a b
  | VObject a, VObject b => ref_eqb a b
  | _, _ => false
  end.

(** A plain object seen as a map: its own enumerable properties. *)
Abbreviation object := (gmap string value).

(** [Object.keys(o)] *)
Definition Object_keys (o : object) : list string := (map_to_list o).*1.

(** [o[key]] for an object with no inherited property of interest: the
    criteria objects are only read at their own keys. *)
Definition prop (o : object) (key : string) : value :=
  default VUndefined (o !! key).

(** The properties every ordinary object inherits from [Object.prototype]:
    [constructor] is [Object], [__proto__] reads as the prototype itself,
    the others are its methods. *)
Definition prototype_methods : list string :=
  [ "hasOwnProperty"; "isPrototypeOf"; "propertyIsEnumerable";
    "toLocaleString"; "toString"; "valueOf";
    "__defineGetter__"; "__defineSetter__";
    "__lookupGetter__"; "__lookupSetter__" ].

Definition inherited (key : string) : option value :=
  if String.eqb key "constructor" then Some (VObject (Intrinsic "%Object%"))
  else if String.eqb key "__proto__" then
    Some (VObject (Intrinsic "%Object.prototype%"))
  else if existsb (String.eqb key) prototype_methods then
    Some (VObject (Intrinsic ("%Object.prototype." ++ key ++ "%")))
  else None.

End JS.
Import JS.

(** ** Types shared by the two files *)

(** [interface User { id: number; name: string; age: number }] *)
Record User : Type := mkUser { id : Z; name : string; age : Z }.

(** [interface ReadParams { id: number }] *)
Record ReadParams : Type := mkReadParams { params_id : Z }.

(** [keyof User] *)
Inductive UserKey : Type := Kid | Kname | Kage.

Definition key_name (k : UserKey) : string :=
  match k with Kid => "id" | Kname => "name" | Kage => "age" end.

(** [user[key]] for a key of the interface. *)
Definition field (user : User) (k : UserKey) : value :=
  match k with
  | Kid => VNumber (id user)
  | Kname => VString (name user)
  | Kage => VNumber (age user)
  end.

Definition own_key (key : string) : option UserKey :=
  if String.eqb key "id" then Some Kid
  else if String.eqb key "name" then Some Kname
  else if String.eqb key "age" then Some Kage
  else None.

(** [user[key]] for an arbitrary string: users are object literals (the
    reader of the source returns [{ id, name: 'marcus', age: 42 }]), so a
    key that is not an own field is looked up in [Object.prototype]. *)
Definition get (user : User) (key : string) : value :=
  match own_key key with
  | Some k => field user k
  | None => default VUndefined (inherited key)
  end.

(** [key in user]: own or inherited. *)
Definition has (user : User) (key : string) : bool :=
  match own_key key with
  | Some _ => true
  | None => bool_decide (is_Some (inherited key))
  end.

(** [interface Environment { user?: User }] *)
Record Environment : Type := mkEnv { user : option User }.

(** [interface Context { reader; logger; env }]. The reader is fixed for a
    run and is a parameter of the interpreter below. The logger is an
    external sink: the context records the arguments of its calls, oldest
    first. *)
Record Context : Type := mkContext { env : Environment; logged : list value }.

(** [new Error(message)] *)
Inductive Error : Type := mkError (message : string).

Definition MissingUserError : Error := mkError "User not found in context".

(** ** Statements that read and write the context and may throw

    A thrown error leaves the context as it was when the [throw] ran: the
    logger calls made before it have happened. *)
Definition M (A : Type) : Type := Context -> (Error + A) * Context.

Definition ret {A} (a : A) : M A := fun ctx => (inr a, ctx).

Definition bind {A B} (m : M A) (k : A -> M B) : M B :=
  fun ctx =>
    match m ctx with
    | (inl e, ctx') => (inl e, ctx')
    | (inr a, ctx') => k a ctx'
    end.

Definition throw {A} (e : Error) : M A := fun ctx => (inl e, ctx).

Notation "m1 ;; m2" := (bind m1 (fun _ => m2))
  (at level 100, m2 at level 200, right associativity).

(** [context.env.user] *)
Definition env_user : M (option User) := fun ctx => (inr (user (env ctx)), ctx).

(** [context.env.user = u] *)
Definition set_env_user (u : User) : M unit :=
  fun ctx => (inr tt, mkContext (mkEnv (Some u)) (logged ctx)).

(** [context.logger(v)] *)
Definition call_logger (v : value) : M unit :=
  fun ctx => (inr tt, mkContext (env ctx) (logged ctx ++ [v])).

(** The context [run] starts from: [env: {}], and a logger not yet called. *)
Definition fresh_context : Context := mkContext (mkEnv None) [].

(** ** 3.1-execute.ts: actions as tagged data *)
Module Tagged.

(** [interface MatchCriteria { name?: string; city?: string; [key: string]: any }] *)
Abbreviation MatchCriteria := (gmap string value).

(** [type Action = ReadAction | MatchAction | LogAction | NoopAction].
    [callback], [onSuccess] and [onFail] are optional. [OtherAction] stands
    for an object whose [type] is none of the four tags; the interface
    rules it out, the dispatcher still has a [default] case for it. *)
Inductive Action : Type :=
| ReadAction (args : ReadParams)
| MatchAction (args : MatchCriteria)
    (callback : option (option Action * option Action))
| LogAction (args : string)
| NoopAction
| OtherAction (type : string).

(** [callback.onSuccess] and [callback.onFail] *)
Definition onSuccess (cb : option Action * option Action) := fst cb.
Definition onFail (cb : option Action * option Action) := snd cb.

(** [Object.keys(criteria).every((key) => user[key] === criteria[key])] *)
Definition matches (criteria : MatchCriteria) (user : User) : bool :=
  forallb (fun key => strict_eq (get user key) (prop criteria key))
    (Object_keys criteria).

(** The actions that read [context.env.user] and throw when it is absent. *)
Definition needs_user (action : Action) : bool :=
  match action with
  | MatchAction _ _ | LogAction _ => true
  | _ => false
  end.

(** The slot of the callback that the outcome of the match selects:
    [onSuccess] when the criteria match, [onFail] when they do not, and
    nothing when the action has no callback. *)
Definition selected (criteria : MatchCriteria)
    (callback : option (option Action * option Action)) (user : User)
  : option Action :=
  match callback with
  | Some cb => if matches criteria user then onSuccess cb else onFail cb
  | None => None
  end.

(** The [ReadAction] that an action ends up executing when it starts with
    [u] as the user of the context, through the callbacks of its matches. *)
Fixpoint read_reached (action : Action) (u : option User) : option ReadParams :=
  match action with
  | ReadAction args => Some args
  | MatchAction args callback =>
      match u with
      | None => None
      | Some user =>
          match callback with
          | Some cb =>
              match (if matches args user then onSuccess cb else onFail cb) with
              | Some next => read_reached next u
              | None => None
              end
          | None => None
          end
      end
  | _ => None
  end.

Section Exec.

(** [private reader: (params: ReadParams) => User] *)
Variable reader : ReadParams -> User.

Definition executeRead (args : ReadParams) : M unit :=
  set_env_user (reader args).

Definition executeLog (args : string) : M unit :=
  bind env_user (fun u =>
    match u with
    | None => throw MissingUserError
    | Some user =>
        if has user args then call_logger (get user args)
        else call_logger (VString args)
    end).

(** [executeMatch], with the dispatcher it calls back as a parameter. *)
Definition executeMatch (executeAction : Action -> M unit)
    (args : MatchCriteria) (callback : option (option Action * option Action))
  : M unit :=
  bind env_user (fun u =>
    match u with
    | None => throw MissingUserError
    | Some user =>
        let matches := matches args user in
        match callback with
        | Some cb =>
            let nextAction := if matches then onSuccess cb else onFail cb in
            match nextAction with
            | Some next => executeAction next
            | None => ret tt
            end
        | None => ret tt
        end
    end).

Fixpoint executeAction (action : Action) : M unit :=
  match action with
  | ReadAction args => executeRead args
  | MatchAction args callback => executeMatch executeAction args callback
  | LogAction args => executeLog args
  | NoopAction => ret tt
  | OtherAction type => throw (mkError ("Unknown action type: " ++ type))
  end.

(** [for (const action of actions) this.executeAction(action, context)] *)
Fixpoint executeActions (actions : list Action) : M unit :=
  match actions with
  | [] => ret tt
  | action :: rest => executeAction action ;; executeActions rest
  end.

Definition run (actions : list Action) : (Error + unit) * Context :=
  executeActions actions fresh_context.

End Exec.

End Tagged.

(** ** 3-execute.ts: a chain of step objects *)
Module Steps.

(** [interface MatchCriteria { name: string }] *)
Record MatchCriteria : Type := mkCriteria { criteria_name : string }.

(** [interface Effect { log?: keyof User; noop?: boolean }] *)
Record Effect : Type := mkEffect { log : option UserKey; noop : option bool }.

(** The three subclasses of [Step], each with the [nextStep] it inherits.
    The chain is built before [run] and [execute] never writes to it, so a
    step holds the steps it points to. *)
Inductive Step : Type :=
| ReadStep (params : ReadParams) (nextStep : option Step)
| MatchStep (criteria : MatchCriteria) (successStep failStep : Step)
    (nextStep : option Step)
| EffectStep (effect : Effect) (nextStep : option Step).

(** [setNext(step) { this.nextStep = step; return step; }]: the receiver
    after the assignment, and the value returned. *)
Definition setNext (this step : Step) : Step * Step :=
  (match this with
   | ReadStep params _ => ReadStep params (Some step)
   | MatchStep criteria successStep failStep _ =>
       MatchStep criteria successStep failStep (Some step)
   | EffectStep effect _ => EffectStep effect (Some step)
   end, step).

Section Exec.

Variable reader : ReadParams -> User.

Fixpoint execute (step : Step) : M unit :=
  match step with
  | ReadStep params nextStep =>
      set_env_user (reader params) ;;
      match nextStep with
      | Some next => execute next
      | None => ret tt
      end
  | MatchStep criteria successStep failStep _ =>
      bind env_user (fun u =>
        match u with
        | None => throw MissingUserError
        | Some user =>
            let ok := String.eqb (name user) (criteria_name criteria) in
            let nextStep := if ok then successStep else failStep in
            execute nextStep
        end)
  | EffectStep effect _ =>
      bind env_user (fun u =>
        match log effect, u with
        | Some key, Some user => call_logger (field user key)
        | _, _ => ret tt
        end)
  end.

Definition run (steps : Step) : (Error + unit) * Context :=
  execute steps fresh_context.

End Exec.

End Steps.

(** ** The calls of the dispatcher

    [executeAction] once more, returning next to its outcome the tree of
    the calls it made: the call for [action] itself and, under it, one
    entry for each time [executeMatch] called [executeAction] back. *)
Module Calls.
Import Tagged.

Inductive Call : Type := mkCall (action : Action) (nested : list Call).

Definition call_action (c : Call) : Action :=
  match c with mkCall action _ => action end.

Definition call_nested (c : Call) : list Call :=
  match c with mkCall _ nested => nested end.

(** The number of calls of [executeAction] in a tree. *)
Fixpoint calls (c : Call) : nat :=
  match c with
  | mkCall _ nested => S (list_sum (map calls nested))
  end.

(** The levels of an action: one for the action, and those of its deepest
    child. *)
Fixpoint depth (action : Action) : nat :=
  match action with
  | MatchAction _ (Some (s, f)) =>
      S (Nat.max (from_option depth 0%nat s) (from_option depth 0%nat f))
  | _ => 1%nat
  end.

(** [child] is the [onSuccess] or the [onFail] of [parent]. *)
Definition child_of (child parent : Action) : Prop :=
  match parent with
  | MatchAction _ (Some cb) =>
      onSuccess cb = Some child \/ onFail cb = Some child
  | _ => False
  end.

(** Every nested call is for a child of the action of the call above. *)
Inductive descends : Call -> Prop :=
| descends_call action nested :
    Forall (fun c => child_of (call_action c) action) nested ->
    Forall descends nested ->
    descends (mkCall action nested).

Section Exec.

Variable reader : ReadParams -> User.

Definition T (A : Type) : Type := Context -> ((Error + A) * Context) * list Call.

(** A statement that calls nothing. *)
Definition leaf {A} (m : M A) : T A := fun ctx => (m ctx, []).

Definition executeMatch (executeAction : Action -> Context -> ((Error + unit) * Context) * Call)
    (args : MatchCriteria) (callback : option (option Action * option Action))
  : T unit :=
  fun ctx =>
    match user (env ctx) with
    | None => leaf (throw MissingUserError) ctx
    | Some user =>
        let matches := matches args user in
        match callback with
        | Some cb =>
            let nextAction := if matches then onSuccess cb else onFail cb in
            match nextAction with
            | Some next =>
                let '(out, c) := executeAction next ctx in (out, [c])
            | None => leaf (ret tt) ctx
            end
        | None => leaf (ret tt) ctx
        end
    end.

Fixpoint executeAction (action : Action) (ctx : Context)
  : ((Error + unit) * Context) * Call :=
  let '(out, nested) :=
    match action with
    | ReadAction args => leaf (executeRead reader args) ctx
    | MatchAction args callback => executeMatch executeAction args callback ctx
    | LogAction args => leaf (executeLog args) ctx
    | NoopAction => leaf (ret tt) ctx
    | OtherAction type =>
        leaf (throw (mkError ("Unknown action type: " ++ type))) ctx
    end in
  (out, mkCall action nested).

(** The trees of the calls that the loop of [executeActions] makes. *)
Fixpoint executeActions (actions : list Action) (ctx : Context)
  : ((Error + unit) * Context) * list Call :=
  match actions with
  | [] => leaf (ret tt) ctx
  | action :: rest =>
      match executeAction action ctx with
      | ((inl e, ctx'), c) => ((inl e, ctx'), [c])
      | ((inr _, ctx'), c) =>
          let '(out, cs) := executeActions rest ctx' in (out, c :: cs)
      end
  end.

End Exec.

End Calls.

(** ** From a chain of steps to a list of actions

    The programs that both files can express. A [ReadStep] with a next step
    is the head of a list; the two steps of a [MatchStep] are single
    actions; a [MatchStep] and an [EffectStep] end their chain. *)
Module Both.
Import Steps Tagged.

Definition effectAction (effect : Effect) : Action :=
  match log effect with
  | Some key => LogAction (key_name key)
  | None => NoopAction
  end.

Definition criteriaObject (criteria : Steps.MatchCriteria) : Tagged.MatchCriteria :=
  {[ "name" := VString (criteria_name criteria) ]}.

Fixpoint toAction (step : Step) : option Action :=
  match step with
  | ReadStep params None => Some (ReadAction params)
  | MatchStep criteria successStep failStep None =>
      match toAction successStep, toAction failStep with
      | Some s, Some f =>
          Some (MatchAction (criteriaObject criteria) (Some (Some s, Some f)))
      | _, _ => None
      end
  | EffectStep effect None => Some (effectAction effect)
  | _ => None
  end.

Fixpoint toActions (step : Step) : option (list Action) :=
  match step with
  | ReadStep params (Some next) =>
      match toActions next with
      | Some actions => Some (ReadAction params :: actions)
      | None => None
      end
  | _ =>
      match toAction step with
      | Some action => Some [action]
      | None => None
      end
  end.

(** The first thing a chain does is log a field of the user. *)
Definition starts_with_log (step : Step) : bool :=
  match step with
  | EffectStep effect _ => bool_decide (is_Some (log effect))
  | _ => false
  end.

End Both.

(** ** The programs at the end of the two files *)
Module Usage.
Import Steps Tagged.

(** [({ id }) => ({ id, name: 'marcus', age: 42 })] *)
Definition reader (params : ReadParams) : User :=
  mkUser (params_id params) "marcus" 42.

(** The [actions] of 3.1-execute.ts. *)
Definition actions : list Action :=
  [ ReadAction (mkReadParams 15);
    MatchAction {[ "name" := VString "marcus" ]}
      (Some (Some (LogAction "age"), Some NoopAction)) ].

(** The chain of 3-execute.ts, after [readStep.setNext(matchStep)]. *)
Definition successEffect : Step := EffectStep (mkEffect (Some Kage) None) None.
Definition failEffect : Step := EffectStep (mkEffect None (Some true)) None.
Definition matchStep : Step :=
  MatchStep (mkCriteria "marcus") successEffect failEffect None.
Definition readStep : Step :=
  fst (setNext (ReadStep (mkReadParams 15) None) matchStep).

End Usage.

(** ** The shape of an action *)
Module Shape.
Import Tagged.

(** The [type]s of the objects in the tree of an action that are none of
    the four tags, from left to right. *)
Fixpoint unknown_types (action : Action) : list string :=
  match action with
  | OtherAction type => [type]
  | MatchAction _ (Some (s, f)) =>
      from_option unknown_types [] s ++ from_option unknown_types [] f
  | _ => []
  end.

End Shape.

(** ** The steps of a chain that can run *)
Module Reach.
Import Steps.

(** A chain without the next steps of its match and effect steps. *)
Fixpoint live (step : Step) : Step :=
  match step with
  | ReadStep params nextStep => ReadStep params (option_map live nextStep)
  | MatchStep criteria successStep failStep _ =>
      MatchStep criteria (live successStep) (live failStep) None
  | EffectStep effect _ => EffectStep effect None
  end.

End Reach.

(** ** 6-either.ts *)
Module Either.

(** [class Either<L, R>]: the private constructor is only reached through
    [right] and [left], so [isRightValue] tells which of the two types
    [value] has; the two fields are one value of a sum. *)
Record Either (L R : Type) : Type := mkEither { value : L + R }.
Arguments mkEither {L R} value.
Arguments value {L R} e.

Definition isRightValue {L R} (this : Either L R) : bool :=
  match value this with inr _ => true | inl _ => false end.

Definition right {L R} (value : R) : Either L R := mkEither (inr value).

Definition left {L R} (value : L) : Either L R := mkEither (inl value).

Definition isRight {L R} (this : Either L R) : bool := isRightValue this.

Definition isLeft {L R} (this : Either L R) : bool := negb (isRightValue this).

Definition map {L R T} (this : Either L R) (fn : R -> T) : Either L T :=
  match value this with
  | inr v => right (fn v)
  | inl e => left e
  end.

Definition chain {L R T} (this : Either L R) (fn : R -> Either L T)
  : Either L T :=
  match value this with
  | inr v => fn v
  | inl e => left e
  end.

Definition fold {L R T} (this : Either L R) (leftFn : L -> T) (rightFn : R -> T)
  : T :=
  match value this with
  | inr v => rightFn v
  | inl e => leftFn e
  end.

Definition getOrElse {L R} (this : Either L R) (defaultValue : R) : R :=
  match value this with
  | inr v => v
  | inl _ => defaultValue
  end.

End Either.

(** ** 5-future.js *)
Module Future.

Section Future.

(** What the callbacks act on. A callback returns nothing; calling it
    changes the world. *)
Variable World : Type.

Definition Callback (A : Type) : Type := A -> World -> World.

(** [class Future]: [computation] takes [reject] and [resolve]. *)
Record Future (E A : Type) : Type :=
  mkFuture { computation : Callback E -> Callback A -> World -> World }.
Arguments mkFuture {E A} computation.
Arguments computation {E A} f.

Definition fork {E A} (this : Future E A)
    (onError : Callback E) (onSuccess : Callback A) : World -> World :=
  computation this onError onSuccess.

Definition map {E A B} (this : Future E A) (fn : A -> B) : Future E B :=
  mkFuture (fun reject resolve =>
    computation this reject (fun value => resolve (fn value))).

Definition chain {E A B} (this : Future E A) (fn : A -> Future E B)
  : Future E B :=
  mkFuture (fun reject resolve =>
    computation this reject (fun value => fork (fn value) reject resolve)).

(** [futurify(fn)(...args)], for a function that ends by calling its last
    argument with [(error, result)]; a falsy [error] is [None]. *)
Definition futurify {Args E A}
    (fn : Args -> (option E -> A -> World -> World) -> World -> World)
    (args : Args) : Future E A :=
  mkFuture (fun reject resolve =>
    fn args (fun error result =>
      match error with
      | Some e => reject e
      | None => resolve result
      end)).

End Future.

Arguments mkFuture {World E A} computation.
Arguments computation {World E A} f.
Arguments fork {World E A} this onError onSuccess.
Arguments map {World E A B} this fn.
Arguments chain {World E A B} this fn.
Arguments futurify {World Args E A} fn args.

End Future.

(** ** The chain of support handlers *)
Module Support.

(** [priority: 'low' | 'medium' | 'high' | 'critical'] *)
Inductive Priority : Type := low | medium | high | critical.

Definition priority_name (p : Priority) : string :=
  match p with
  | low => "low" | medium => "medium" | high => "high" | critical => "critical"
  end.

(** [interface SupportRequest] *)
Record SupportRequest : Type := mkRequest {
  type : string;
  priority : Priority;
  description : string;
  customerId : string
}.

(** The four subclasses of [SupportHandler]. *)
Inductive Kind : Type := JuniorSupport | SeniorSupport | TechnicalLead | Manager.

Definition is_priority (p q : Priority) : bool :=
  match p, q with
  | low, low | medium, medium | high, high | critical, critical => true
  | _, _ => false
  end.

Definition canHandle (this : Kind) (request : SupportRequest) : bool :=
  match this with
  | JuniorSupport =>
      is_priority (priority request) low && String.eqb (type request) "general"
  | SeniorSupport =>
      (is_priority (priority request) medium || is_priority (priority request) low)
      && (String.eqb (type request) "technical"
          || String.eqb (type request) "general")
  | TechnicalLead =>
      is_priority (priority request) high
      && String.eqb (type request) "technical"
  | Manager => is_priority (priority request) critical
  end.

(** The double quote character of the template strings. *)
Definition quote : string := String (Ascii.ascii_of_nat 34) EmptyString.

Definition processRequest (this : Kind) (request : SupportRequest) : string :=
  match this with
  | JuniorSupport =>
      "[Junior Support] Handling low priority general request from "
      ++ customerId request ++ ": " ++ quote ++ description request ++ quote
  | SeniorSupport =>
      "[Senior Support] Handling " ++ priority_name (priority request)
      ++ " priority " ++ type request ++ " request from "
      ++ customerId request ++ ": " ++ quote ++ description request ++ quote
  | TechnicalLead =>
      "[Technical Lead] Handling high priority technical request from "
      ++ customerId request ++ ": " ++ quote ++ description request ++ quote
  | Manager =>
      "[MANAGER - URGENT] Handling critical " ++ type request
      ++ " request from "
      ++ customerId request ++ ": " ++ quote ++ description request ++ quote
  end.

(** The answer of [handle] at the end of the chain. *)
Definition noHandler (request : SupportRequest) : string :=
  "No handler available for " ++ type request ++ " request with priority "
  ++ priority_name (priority request).

(** A handler with the handlers behind it, once the chain is built. *)
Inductive SupportHandler : Type :=
  mkHandler (kind : Kind) (nextHandler : option SupportHandler).

Fixpoint handle (this : SupportHandler) (request : SupportRequest) : string :=
  match this with
  | mkHandler kind nextHandler =>
      if canHandle kind request then processRequest kind request
      else
        match nextHandler with
        | Some next => handle next request
        | None => noHandler request
        end
  end.

(** The kinds of a chain, first handler first. *)
Fixpoint kinds (this : SupportHandler) : list Kind :=
  match this with
  | mkHandler kind nextHandler => kind :: from_option kinds [] nextHandler
  end.

(** *** The handlers as objects

    [setNext] writes to the receiver and returns its argument, and the demo
    chains the calls; the handlers live in a store and point to each other
    by address. *)
Record Object : Type := mkObject { kind : Kind; nextHandler : option nat }.

(** [new JuniorSupport()] and the like: [nextHandler] starts as [null]. *)
Definition new (k : Kind) (store : gmap nat Object) : gmap nat Object * nat :=
  let this := fresh (dom store) in
  (<[this := mkObject k None]> store, this).

(** [setNext(handler) { this.nextHandler = handler; return handler; }] *)
Definition setNext (this handler : nat) (store : gmap nat Object)
  : gmap nat Object * nat :=
  (alter (fun o => mkObject (kind o) (Some handler)) this store, handler).

(** [handle] on the store. A call that goes on to the next handler costs
    one unit of [fuel]; [None] is a chain that did not answer within it. *)
Fixpoint handle_at (fuel : nat) (store : gmap nat Object) (this : nat)
    (request : SupportRequest) : option string :=
  match fuel with
  | O => None
  | S fuel =>
      match store !! this with
      | None => None
      | Some o =>
          if canHandle (kind o) request then Some (processRequest (kind o) request)
          else
            match nextHandler o with
            | Some next => handle_at fuel store next request
            | None => Some (noHandler request)
            end
      end
  end.

(** The chain that starts at an address, read off the store. *)
Fixpoint load (fuel : nat) (store : gmap nat Object) (this : nat)
  : option SupportHandler :=
  match fuel with
  | O => None
  | S fuel =>
      match store !! this with
      | None => None
      | Some o =>
          match nextHandler o with
          | Some next =>
              match load fuel store next with
              | Some chain => Some (mkHandler (kind o) (Some chain))
              | None => None
              end
          | None => Some (mkHandler (kind o) None)
          end
      end
  end.

(** The demo: four handlers, then
    [junior.setNext(senior).setNext(techLead).setNext(manager)]. *)
Definition demo : gmap nat Object * nat :=
  let '(s, junior) := new JuniorSupport ∅ in
  let '(s, senior) := new SeniorSupport s in
  let '(s, techLead) := new TechnicalLead s in
  let '(s, manager) := new Manager s in
  let '(s, r) := setNext junior senior s in
  let '(s, r) := setNext r techLead s in
  let '(s, _) := setNext r manager s in
  (s, junior).

(** The same chain, as the handlers point to each other in the end. *)
Definition demo_chain : SupportHandler :=
  mkHandler JuniorSupport (Some (mkHandler SeniorSupport
    (Some (mkHandler TechnicalLead (Some (mkHandler Manager None)))))).

End Support.

(** ** The chain of loggers *)
Module Logging.

(** [enum LogLevel { INFO = 1, WARNING = 2, ERROR = 3 }] *)
Inductive LogLevel : Type := INFO | WARNING | ERROR.

Definition level_number (l : LogLevel) : Z :=
  match l with INFO => 1 | WARNING => 2 | ERROR => 3 end.

(** The three subclasses of [Logger]. *)
Inductive Kind : Type := ConsoleLogger | FileLogger | ErrorLogger.

(** What [write] passes to [console.log]. *)
Definition written (this : Kind) (message : string) : string :=
  match this with
  | ConsoleLogger => "[CONSOLE] " ++ message
  | FileLogger => "[FILE] Writing to file: " ++ message
  | ErrorLogger => "[ERROR LOG] ⚠️  " ++ message
  end.

Inductive Logger : Type :=
  mkLogger (kind : Kind) (level : LogLevel) (nextLogger : option Logger).

(** [log(level, message)], on the lines of the console so far. *)
Fixpoint log (this : Logger) (level : LogLevel) (message : string)
    (console : list string) : list string :=
  match this with
  | mkLogger kind threshold nextLogger =>
      let console :=
        if Z.leb (level_number threshold) (level_number level)
        then (console ++ [written kind message])%list
        else console in
      match nextLogger with
      | Some next => log next level message console
      | None => console
      end
  end.

(** The loggers of a chain with their levels, first logger first. *)
Fixpoint loggers (this : Logger) : list (Kind * LogLevel) :=
  match this with
  | mkLogger kind level nextLogger =>
      (kind, level) :: from_option loggers [] nextLogger
  end.

End Logging.

(** ** 2-do.js *)
Module DoMonad.

(** [class DoMonad { constructor(value) }] *)
Record DoMonad (A : Type) : Type := mkDoMonad { value : A }.
Arguments mkDoMonad {A} value.
Arguments value {A} d.

(** [function Do(value)] *)
Definition Do {A} (value : A) : DoMonad A := mkDoMonad value.

Definition bind {A B} (this : DoMonad A) (fn : A -> B) : DoMonad B :=
  mkDoMonad (fn (value this)).

(** [run(arg)]: a value is a function (on the right) or it is not, which
    is what [typeof this.value === 'function'] tells. *)
Definition run {D Arg Res} (this : DoMonad (D + (Arg -> Res))) (arg : Arg)
  : D + Res :=
  match value this with
  | inr fn => inr (fn arg)
  | inl v => inl v
  end.

(** The two functions bound in the file. A function that returns nothing
    is its effect on the calls of the logger. *)
Definition read (params : ReadParams) : User :=
  mkUser (params_id params) "marcus" 42.

Definition effect (u : User)
  : JS.value +
    ((JS.value -> list JS.value -> list JS.value) ->
     list JS.value -> list JS.value) :=
  inr (if String.eqb (name u) "marcus"
       then fun log => log (VNumber (age u))
       else fun _ calls => calls).

(** [console.log], as the logger of the interpreters: one more call. *)
Definition console_log (v : JS.value) (calls : list JS.value)
  : list JS.value :=
  calls ++ [v].

(** The calls of the logger after [Do(params).bind(..).bind(..).run(log)]. *)
Definition program (params : ReadParams) (calls : list JS.value)
  : list JS.value :=
  match run (bind (bind (Do params) read) effect) console_log with
  | inr done => done calls
  | inl _ => calls
  end.

End DoMonad.


(** * Properties *)

(** ** Values, users and criteria *)

Lemma ref_eqb_eq (a b : ref) : ref_eqb a b = true <-> a = b.
Proof.
  destruct a as [x|x], b as [y|y]; simpl.
  - rewrite String.eqb_eq. split; congruence.
  - split; discriminate.
  - split; discriminate.
  - rewrite Pos.eqb_eq. split; congruence.
Qed.

Lemma strict_eq_eq (x y : value) : strict_eq x y = true <-> x = y.
Proof.
  destruct x, y; simpl; try (split; (discriminate || reflexivity)).
  - rewrite Bool.eqb_true_iff. split; congruence.
  - rewrite Z.eqb_eq. split; congruence.
  - rewrite String.eqb_eq. split; congruence.
  - rewrite ref_eqb_eq. split; congruence.
Qed.

Lemma strict_eq_refl (x : value) : strict_eq x x = true.
Proof. now apply strict_eq_eq. Qed.

Lemma Object_keys_elem (o : object) (key : string) :
  key ∈ Object_keys o <-> is_Some (o !! key).
Proof.
  unfold Object_keys. rewrite list_elem_of_fmap. split.
  - intros [[k v] [-> Hin]]. apply elem_of_map_to_list in Hin. simpl. eauto.
  - intros [v Hv]. exists (key, v). split; [reflexivity|].
    now apply elem_of_map_to_list.
Qed.

Lemma Object_keys_singleton (key : string) (v : value) :
  Object_keys {[ key := v ]} = [key].
Proof. unfold Object_keys. now rewrite map_to_list_singleton. Qed.

Lemma prop_singleton (key : string) (v : value) : prop {[ key := v ]} key = v.
Proof. unfold prop. now rewrite lookup_singleton_eq. Qed.

Lemma matches_spec (criteria : Tagged.MatchCriteria) (u : User) :
  Tagged.matches criteria u = true <->
  forall key v, criteria !! key = Some v -> get u key = v.
Proof.
  unfold Tagged.matches. rewrite forallb_forall. split.
  - intros H key v Hkv. apply strict_eq_eq.
    replace v with (prop criteria key) by (unfold prop; now rewrite Hkv).
    apply H, list_elem_of_In, Object_keys_elem. eauto.
  - intros H key Hin.
    apply list_elem_of_In, Object_keys_elem in Hin as [v Hv].
    apply strict_eq_eq. unfold prop. rewrite Hv. simpl. eauto.
Qed.

Lemma matches_false (criteria : Tagged.MatchCriteria) (u : User) key v :
  criteria !! key = Some v -> get u key <> v -> Tagged.matches criteria u = false.
Proof.
  intros Hkv Hne. apply not_true_is_false. intros H.
  apply Hne. eapply matches_spec; eauto.
Qed.

Lemma own_key_name (k : UserKey) : own_key (key_name k) = Some k.
Proof. now destruct k. Qed.

Lemma own_key_Some (key : string) (k : UserKey) :
  own_key key = Some k -> key = key_name k.
Proof.
  unfold own_key.
  destruct (String.eqb_spec key "id") as [->|_]; [intros [= <-]; reflexivity|].
  destruct (String.eqb_spec key "name") as [->|_]; [intros [= <-]; reflexivity|].
  destruct (String.eqb_spec key "age") as [->|_]; [intros [= <-]; reflexivity|].
  discriminate.
Qed.

Lemma has_false (u : User) (key : string) :
  has u key = false <-> own_key key = None /\ inherited key = None.
Proof.
  unfold has. destruct (own_key key).
  - split; [discriminate | intros [? _]; discriminate].
  - rewrite bool_decide_eq_false. destruct (inherited key); split.
    + intros H. exfalso. apply H. eauto.
    + intros [_ ?]; discriminate.
    + auto.
    + intros _ [? ?]. discriminate.
Qed.

Lemma get_absent (u : User) (key : string) :
  has u key = false -> get u key = VUndefined.
Proof.
  intros [Ho Hi]%has_false. unfold get. now rewrite Ho, Hi.
Qed.

(** ** The dispatcher *)

(** Induction over the tree of an action: the children of a match are the
    actions in the two slots of its callback. *)
Lemma Action_tree_ind (P : Tagged.Action -> Prop) :
  (forall args, P (Tagged.ReadAction args)) ->
  (forall args, P (Tagged.LogAction args)) ->
  P Tagged.NoopAction ->
  (forall type, P (Tagged.OtherAction type)) ->
  (forall args, P (Tagged.MatchAction args None)) ->
  (forall args s f,
      (forall a, s = Some a -> P a) -> (forall a, f = Some a -> P a) ->
      P (Tagged.MatchAction args (Some (s, f)))) ->
  forall action, P action.
Proof.
  intros HR HL HN HO HM0 HM. fix IH 1.
  intros [args | args [[s f]|] | args | | type];
    [apply HR | | apply HM0 | apply HL | apply HN | apply HO].
  apply HM.
  - destruct s as [a|]; intros a' [= <-]. apply IH.
  - destruct f as [a|]; intros a' [= <-]. apply IH.
Qed.

Section Dispatcher.

Variable reader : ReadParams -> User.

Lemma executeMatch_unfold args callback ctx :
  Tagged.executeAction reader (Tagged.MatchAction args callback) ctx =
  match user (env ctx) with
  | None => (inl MissingUserError, ctx)
  | Some u =>
      match Tagged.selected args callback u with
      | Some next => Tagged.executeAction reader next ctx
      | None => (inr tt, ctx)
      end
  end.
Proof.
  cbn [Tagged.executeAction]. unfold Tagged.executeMatch, bind, env_user.
  destruct (user (env ctx)) as [u|]; [|reflexivity].
  unfold Tagged.selected. destruct callback as [cb|]; [|reflexivity].
  now destruct (if Tagged.matches args u then _ else _).
Qed.

Lemma traced_executeMatch_unfold args callback ctx :
  Calls.executeAction reader (Tagged.MatchAction args callback) ctx =
  match user (env ctx) with
  | None => ((inl MissingUserError, ctx), Calls.mkCall (Tagged.MatchAction args callback) [])
  | Some u =>
      match Tagged.selected args callback u with
      | Some next =>
          (fst (Calls.executeAction reader next ctx),
           Calls.mkCall (Tagged.MatchAction args callback)
             [snd (Calls.executeAction reader next ctx)])
      | None => ((inr tt, ctx), Calls.mkCall (Tagged.MatchAction args callback) [])
      end
  end.
Proof.
  cbn [Calls.executeAction]. unfold Calls.executeMatch.
  destruct (user (env ctx)) as [u|]; [|reflexivity].
  unfold Tagged.selected. destruct callback as [cb|]; [|reflexivity].
  destruct (if Tagged.matches args u then _ else _) as [next|]; [|reflexivity].
  now destruct (Calls.executeAction reader next ctx).
Qed.

(** The outcome next to the tree of calls is the outcome of the dispatcher. *)
Lemma traced_outcome action :
  forall ctx,
    fst (Calls.executeAction reader action ctx) =
    Tagged.executeAction reader action ctx.
Proof.
  induction action using Action_tree_ind; intros ctx; try reflexivity.
  - rewrite traced_executeMatch_unfold, executeMatch_unfold.
    destruct (user (env ctx)); reflexivity.
  - rewrite traced_executeMatch_unfold, executeMatch_unfold.
    destruct (user (env ctx)) as [u|]; [|reflexivity].
    unfold Tagged.selected.
    destruct (Tagged.matches args u); unfold Tagged.onSuccess, Tagged.onFail;
      simpl; [destruct s as [a|] | destruct f as [a|]]; simpl; auto.
Qed.

Lemma traced_root action ctx :
  Calls.call_action (snd (Calls.executeAction reader action ctx)) = action.
Proof.
  destruct action; cbn [Calls.executeAction];
    try reflexivity.
  now destruct (Calls.executeMatch _ _ _ _).
Qed.

Lemma selected_child args callback u next :
  Tagged.selected args callback u = Some next ->
  Calls.child_of next (Tagged.MatchAction args callback).
Proof.
  unfold Tagged.selected, Calls.child_of. destruct callback as [cb|]; [|discriminate].
  destruct (Tagged.matches args u); auto.
Qed.

Lemma selected_depth args callback u next :
  Tagged.selected args callback u = Some next ->
  (S (Calls.depth next) <= Calls.depth (Tagged.MatchAction args callback))%nat.
Proof.
  unfold Tagged.selected. destruct callback as [[s f]|]; [|discriminate].
  unfold Tagged.onSuccess, Tagged.onFail. cbn [fst snd Calls.depth].
  destruct (Tagged.matches args u); intros ->; cbn [from_option]; lia.
Qed.

Lemma traced_descends action :
  forall ctx, Calls.descends (snd (Calls.executeAction reader action ctx)).
Proof.
  induction action using Action_tree_ind; intros ctx;
    try (cbn; constructor; constructor).
  - rewrite traced_executeMatch_unfold.
    destruct (user (env ctx)); cbn; constructor; constructor.
  - rewrite traced_executeMatch_unfold.
    destruct (user (env ctx)) as [u|]; [|cbn; constructor; constructor].
    destruct (Tagged.selected args (Some (s, f)) u) as [next|] eqn:Hsel;
      [|cbn; constructor; constructor].
    cbn [snd]. constructor.
    + constructor; [|constructor]. rewrite traced_root.
      eapply selected_child; eauto.
    + constructor; [|constructor].
      unfold Tagged.selected, Tagged.onSuccess, Tagged.onFail in Hsel.
      cbn [fst snd] in Hsel. destruct (Tagged.matches args u); eauto.
Qed.

Lemma traced_calls action :
  forall ctx,
    (Calls.calls (snd (Calls.executeAction reader action ctx)) <=
     Calls.depth action)%nat.
Proof.
  induction action using Action_tree_ind; intros ctx;
    try (cbn; lia).
  - rewrite traced_executeMatch_unfold.
    destruct (user (env ctx)); cbn; lia.
  - rewrite traced_executeMatch_unfold.
    destruct (user (env ctx)) as [u|]; [|cbn; lia].
    destruct (Tagged.selected args (Some (s, f)) u) as [next|] eqn:Hsel;
      [|cbn; lia].
    pose proof (selected_depth _ _ _ _ Hsel) as Hd.
    assert (Calls.calls (snd (Calls.executeAction reader next ctx)) <=
            Calls.depth next)%nat as Hn.
    { unfold Tagged.selected, Tagged.onSuccess, Tagged.onFail in Hsel.
      cbn [fst snd] in Hsel. destruct (Tagged.matches args u); eauto. }
    cbn [snd Calls.calls map]. unfold list_sum. cbn [fold_right]. lia.
Qed.

Lemma executeRead_unfold args ctx :
  Tagged.executeAction reader (Tagged.ReadAction args) ctx =
  (inr tt, mkContext (mkEnv (Some (reader args))) (logged ctx)).
Proof. reflexivity. Qed.

Lemma executeActions_cons action rest ctx :
  Tagged.executeActions reader (action :: rest) ctx =
  match Tagged.executeAction reader action ctx with
  | (inl e, ctx') => (inl e, ctx')
  | (inr _, ctx') => Tagged.executeActions reader rest ctx'
  end.
Proof. reflexivity. Qed.

Lemma executeActions_app pre post ctx :
  Tagged.executeActions reader (pre ++ post) ctx =
  match Tagged.executeActions reader pre ctx with
  | (inl e, ctx') => (inl e, ctx')
  | (inr _, ctx') => Tagged.executeActions reader post ctx'
  end.
Proof.
  revert ctx. induction pre as [|action pre IH]; intros ctx; [reflexivity|].
  rewrite <- app_comm_cons, !executeActions_cons.
  destruct (Tagged.executeAction reader action ctx) as [[e|[]] ctx']; auto.
Qed.

End Dispatcher.

(** ** The claims *)

(** C1. With a reader that answers [{id: 15, name: "marcus", age: 42}] for
    the id 15, running [[Read{id:15}, Match{criteria:{name:"marcus"},
    onSuccess:Log{key:"age"}, onFail:Noop}]] returns normally and has
    called the logger exactly once, with the value 42. *)
Theorem run_marcus_logs_age (reader : ReadParams -> User)
    (Hreader : reader (mkReadParams 15) = mkUser 15 "marcus" 42) :
  Tagged.run reader Usage.actions =
  (inr tt, mkContext (mkEnv (Some (mkUser 15 "marcus" 42))) [VNumber 42]).
Proof.
  unfold Tagged.run, Usage.actions.
  rewrite executeActions_cons, executeRead_unfold, Hreader.
  cbv iota beta. rewrite executeActions_cons, executeMatch_unfold.
  cbn [user env].
  unfold Tagged.selected, Tagged.matches.
  rewrite Object_keys_singleton. cbn [forallb]. rewrite prop_singleton.
  reflexivity.
Qed.

Lemma run_marcus_logs_age_witness :
  Usage.reader (mkReadParams 15) = mkUser 15 "marcus" 42 /\
  Tagged.run Usage.reader Usage.actions =
  (inr tt, mkContext (mkEnv (Some (mkUser 15 "marcus" 42))) [VNumber 42]).
Proof.
  split; [reflexivity | apply (run_marcus_logs_age Usage.reader); reflexivity].
Defined.

(** C2. The match predicate depends on the criteria and the user only, and
    it is true exactly when every key of the criteria is bound to the very
    value the user has at that key; the empty criteria match every user. *)
Theorem matches_iff_every_key_identical
    (criteria : Tagged.MatchCriteria) (u : User) :
  (Tagged.matches criteria u = true <->
   forall key v, criteria !! key = Some v -> get u key = v) /\
  Tagged.matches ∅ u = true.
Proof.
  split; [apply matches_spec|].
  apply matches_spec. intros key v H. now rewrite lookup_empty in H.
Qed.

(** C6. A read stores the user that the reader returns, whatever the
    context held before: in the list of actions the rest of the list runs
    on a context with exactly that user, and in the chain of steps the next
    step does. The calls of the logger so far are kept. *)
Theorem read_overwrites_user (reader : ReadParams -> User)
    (args : ReadParams) (ctx : Context) :
  let ctx' := mkContext (mkEnv (Some (reader args))) (logged ctx) in
  Tagged.executeAction reader (Tagged.ReadAction args) ctx = (inr tt, ctx') /\
  (forall rest,
      Tagged.executeActions reader (Tagged.ReadAction args :: rest) ctx =
      Tagged.executeActions reader rest ctx') /\
  Steps.execute reader (Steps.ReadStep args None) ctx = (inr tt, ctx') /\
  (forall next,
      Steps.execute reader (Steps.ReadStep args (Some next)) ctx =
      Steps.execute reader next ctx').
Proof.
  repeat split; reflexivity.
Qed.

Lemma own_key_elem (key : string) :
  key ∈ ["id"; "name"; "age"] <-> is_Some (own_key key).
Proof.
  split.
  - intros H. repeat (apply elem_of_cons in H as [->|H]; [now eexists|]).
    now apply elem_of_nil in H.
  - intros [k ->%own_key_Some]. destruct k; simpl; set_solver.
Qed.

(** C7, the claim as written fails for a key that users inherit: the
    logger receives the method, not the string ["toString"]. *)
Lemma log_inherited_key_counterexample :
  ("toString" ∉ ["id"; "name"; "age"]) /\
  (Tagged.executeAction Usage.reader (Tagged.LogAction "toString")
     (mkContext (mkEnv (Some (mkUser 15 "marcus" 42))) []) =
   (inr tt, mkContext (mkEnv (Some (mkUser 15 "marcus" 42)))
              [VObject (Intrinsic "%Object.prototype.toString%")])) /\
  (logged (snd (Tagged.executeAction Usage.reader (Tagged.LogAction "toString")
                  (mkContext (mkEnv (Some (mkUser 15 "marcus" 42))) []))) <>
   [VString "toString"]).
Proof.
  split; [|split; [reflexivity | discriminate]].
  rewrite own_key_elem. intros [k Hk]. discriminate.
Qed.

(** C7, amended. On a context that holds the user [U], [Log{key}] returns
    normally and calls the logger exactly once: with [U[key]] when the key
    names a property of [U], as id, name and age do, and with the key string
    itself when [U] has no property of that name. *)
Theorem log_calls_logger_once (reader : ReadParams -> User)
    (U : User) (l : list value) (key : string) :
  Tagged.executeAction reader (Tagged.LogAction key)
    (mkContext (mkEnv (Some U)) l) =
  (inr tt, mkContext (mkEnv (Some U))
             (l ++ [if has U key then get U key else VString key])) /\
  (key ∈ ["id"; "name"; "age"] ->
   Tagged.executeAction reader (Tagged.LogAction key)
     (mkContext (mkEnv (Some U)) l) =
   (inr tt, mkContext (mkEnv (Some U)) (l ++ [get U key]))) /\
  (has U key = false ->
   Tagged.executeAction reader (Tagged.LogAction key)
     (mkContext (mkEnv (Some U)) l) =
   (inr tt, mkContext (mkEnv (Some U)) (l ++ [VString key]))).
Proof.
  assert (Tagged.executeAction reader (Tagged.LogAction key)
            (mkContext (mkEnv (Some U)) l) =
          (inr tt, mkContext (mkEnv (Some U))
                     (l ++ [if has U key then get U key else VString key])))
    as Hlog.
  { cbn. unfold Tagged.executeLog, bind, env_user. cbn.
    now destruct (has U key). }
  split; [exact Hlog|]. rewrite Hlog. split; intros H.
  - apply own_key_elem in H as [k Hk]. unfold has. now rewrite Hk.
  - now rewrite H.
Qed.

Lemma log_calls_logger_once_witness :
  ("name" ∈ ["id"; "name"; "age"] /\
   Tagged.executeAction Usage.reader (Tagged.LogAction "name")
     (mkContext (mkEnv (Some (mkUser 15 "marcus" 42))) [VNumber 1]) =
   (inr tt, mkContext (mkEnv (Some (mkUser 15 "marcus" 42)))
              [VNumber 1; VString "marcus"])) /\
  (has (mkUser 15 "marcus" 42) "unknownField" = false /\
   Tagged.executeAction Usage.reader (Tagged.LogAction "unknownField")
     (mkContext (mkEnv (Some (mkUser 15 "marcus" 42))) [VNumber 1]) =
   (inr tt, mkContext (mkEnv (Some (mkUser 15 "marcus" 42)))
              [VNumber 1; VString "unknownField"])).
Proof.
  pose proof (log_calls_logger_once Usage.reader (mkUser 15 "marcus" 42)
                [VNumber 1] "name") as (_ & Hfield & _).
  pose proof (log_calls_logger_once Usage.reader (mkUser 15 "marcus" 42)
                [VNumber 1] "unknownField") as (_ & _ & Hkey).
  assert ("name" ∈ ["id"; "name"; "age"]) as Hin
    by (apply own_key_elem; now eexists).
  split; (split; [assumption || reflexivity|]).
  - apply Hfield, Hin.
  - apply Hkey. reflexivity.
Defined.

(** C3, the claim as written fails in the chain of steps: an [EffectStep]
    that logs, executed on a context with no user, returns normally. *)
Lemma effect_step_no_user_counterexample :
  user (env fresh_context) = None /\
  Steps.execute Usage.reader
    (Steps.EffectStep (Steps.mkEffect (Some Kage) None) None) fresh_context =
  (inr tt, fresh_context) /\
  fst (Steps.execute Usage.reader
         (Steps.EffectStep (Steps.mkEffect (Some Kage) None) None)
         fresh_context) <> inl MissingUserError.
Proof. repeat split. discriminate. Qed.

(** C3, amended. On a context with no user, a match or a log of the list
    of actions throws the missing-user error and leaves the context, hence
    the calls of the logger, as they were, and the run of a list stops with
    that error at the first such action; a [MatchStep] of the chain does the
    same; an [EffectStep] throws nothing and calls nothing. *)
Theorem no_user_raises (reader : ReadParams -> User) (ctx : Context)
    (Hnone : user (env ctx) = None) :
  (forall args callback,
      Tagged.executeAction reader (Tagged.MatchAction args callback) ctx =
      (inl MissingUserError, ctx)) /\
  (forall key,
      Tagged.executeAction reader (Tagged.LogAction key) ctx =
      (inl MissingUserError, ctx)) /\
  (forall pre action post ctx0,
      Tagged.needs_user action = true ->
      Tagged.executeActions reader pre ctx0 = (inr tt, ctx) ->
      Tagged.executeActions reader (pre ++ action :: post) ctx0 =
      (inl MissingUserError, ctx)) /\
  (forall criteria successStep failStep next,
      Steps.execute reader
        (Steps.MatchStep criteria successStep failStep next) ctx =
      (inl MissingUserError, ctx)) /\
  (forall effect next,
      Steps.execute reader (Steps.EffectStep effect next) ctx = (inr tt, ctx)).
Proof.
  assert (forall action, Tagged.needs_user action = true ->
            Tagged.executeAction reader action ctx =
            (inl MissingUserError, ctx)) as Hneeds.
  { intros [| args callback | key | |]; try discriminate; intros _.
    - now rewrite executeMatch_unfold, Hnone.
    - cbn. unfold Tagged.executeLog, bind, env_user. now rewrite Hnone. }
  split; [|split; [|split; [|split]]].
  - intros. now apply Hneeds.
  - intros. now apply Hneeds.
  - intros pre action post ctx0 Hact Hpre.
    now rewrite executeActions_app, Hpre, executeActions_cons, Hneeds.
  - intros. cbn. unfold bind, env_user. now rewrite Hnone.
  - intros. cbn. unfold bind, env_user. rewrite Hnone.
    now destruct (Steps.log effect).
Qed.

Lemma no_user_raises_witness :
  user (env fresh_context) = None /\
  Tagged.executeAction Usage.reader (Tagged.LogAction "age") fresh_context =
  (inl MissingUserError, fresh_context) /\
  Tagged.executeActions Usage.reader
    ([Tagged.NoopAction] ++ Tagged.MatchAction ∅ (Some (Some Tagged.NoopAction, None))
       :: [Tagged.LogAction "age"]) fresh_context =
  (inl MissingUserError, fresh_context).
Proof.
  split; [reflexivity|].
  pose proof (no_user_raises Usage.reader fresh_context eq_refl)
    as (_ & Hlog & Hlist & _).
  split; [apply Hlog | apply Hlist; reflexivity].
Defined.

(** C4, the claim as written fails for a match whose callback is a read:
    the user of the context is replaced. *)
Lemma match_with_read_counterexample :
  env (snd (Tagged.executeAction Usage.reader
              (Tagged.MatchAction ∅
                 (Some (Some (Tagged.ReadAction (mkReadParams 2)), None)))
              (mkContext (mkEnv (Some (mkUser 1 "bob" 30))) []))) <>
  env (mkContext (mkEnv (Some (mkUser 1 "bob" 30))) []).
Proof. vm_compute. discriminate. Qed.

(** C4, amended. A read sets the user of the context to the user the reader
    returns. A log and a noop leave it as it was. A match leaves it as it
    was unless the action it goes on with, through the callbacks of nested
    matches, is a read; then the user is the one of that read. *)
Theorem user_set_by_reads_only (reader : ReadParams -> User)
    (action : Tagged.Action) (ctx : Context) :
  env (snd (Tagged.executeAction reader action ctx)) =
  match Tagged.read_reached action (user (env ctx)) with
  | Some args => mkEnv (Some (reader args))
  | None => env ctx
  end /\
  (forall args,
      env (snd (Tagged.executeAction reader (Tagged.ReadAction args) ctx)) =
      mkEnv (Some (reader args))) /\
  (forall key,
      env (snd (Tagged.executeAction reader (Tagged.LogAction key) ctx)) =
      env ctx) /\
  env (snd (Tagged.executeAction reader Tagged.NoopAction ctx)) = env ctx.
Proof.
  assert (forall key c,
      env (snd (Tagged.executeAction reader (Tagged.LogAction key) c)) = env c)
    as Hlog.
  { intros key c. cbn. unfold Tagged.executeLog, bind, env_user.
    destruct (user (env c)) as [u|]; [|reflexivity].
    now destruct (has u key). }
  split; [|split; [reflexivity | split; [intros; apply Hlog | reflexivity]]].
  revert ctx. induction action using Action_tree_ind; intros ctx;
    try reflexivity.
  - apply Hlog.
  - rewrite executeMatch_unfold. cbn [Tagged.read_reached].
    now destruct (user (env ctx)).
  - rewrite executeMatch_unfold. cbn [Tagged.read_reached Tagged.selected].
    destruct (user (env ctx)) as [u|] eqn:Hu; [|reflexivity].
    destruct (if Tagged.matches args u then _ else _) as [next|] eqn:Hnext;
      [|reflexivity].
    rewrite <- Hu.
    destruct (Tagged.matches args u); unfold Tagged.onSuccess, Tagged.onFail in Hnext;
      cbn [fst snd] in Hnext; eauto.
Qed.

(** ** The two files on the programs they share *)

Section Agreement.

Variable reader : ReadParams -> User.

Lemma matches_criteriaObject criteria u :
  Tagged.matches (Both.criteriaObject criteria) u =
  String.eqb (name u) (Steps.criteria_name criteria).
Proof.
  unfold Tagged.matches, Both.criteriaObject.
  rewrite Object_keys_singleton. cbn [forallb]. rewrite prop_singleton.
  cbn. apply andb_true_r.
Qed.

Lemma executeActions_single action ctx :
  Tagged.executeActions reader [action] ctx =
  Tagged.executeAction reader action ctx.
Proof.
  rewrite executeActions_cons.
  now destruct (Tagged.executeAction reader action ctx) as [[e|[]] ctx'].
Qed.

Lemma effectAction_populated effect next ctx :
  is_Some (user (env ctx)) ->
  Steps.execute reader (Steps.EffectStep effect next) ctx =
  Tagged.executeAction reader (Both.effectAction effect) ctx.
Proof.
  intros [u Hu]. unfold Both.effectAction. cbn [Steps.execute].
  unfold bind, env_user. rewrite Hu.
  destruct (Steps.log effect) as [key|]; [|reflexivity].
  cbn. unfold Tagged.executeLog, bind, env_user. rewrite Hu.
  unfold has, get. now rewrite own_key_name.
Qed.

(** A step that stands for one action does what the action does once the
    context has a user. *)
Lemma toAction_populated step :
  forall action ctx,
    Both.toAction step = Some action ->
    is_Some (user (env ctx)) ->
    Steps.execute reader step ctx = Tagged.executeAction reader action ctx.
Proof.
  induction step as [params next | criteria s IHs f IHf next | effect next];
    intros action ctx Hto Hctx.
  - destruct next; [discriminate|]. now injection Hto as <-.
  - cbn [Both.toAction] in Hto. destruct next; [discriminate|].
    destruct (Both.toAction s) as [a|]; [|discriminate].
    destruct (Both.toAction f) as [b|]; [|discriminate].
    injection Hto as <-. rewrite executeMatch_unfold.
    destruct Hctx as [u Hu]. cbn [Steps.execute]. unfold bind, env_user.
    rewrite Hu. unfold Tagged.selected. rewrite matches_criteriaObject.
    destruct (String.eqb (name u) (Steps.criteria_name criteria));
      cbn [Tagged.onSuccess Tagged.onFail fst snd]; eauto.
  - cbn [Both.toAction] in Hto. destruct next; [discriminate|].
    injection Hto as <-. now apply effectAction_populated.
Qed.

Lemma toActions_single step action :
  Both.toAction step = Some action -> Both.toActions step = Some [action].
Proof.
  intros H. destruct step as [params [next|] | |]; cbn [Both.toActions];
    try (now rewrite H).
  discriminate.
Qed.

Lemma toActions_inv step actions :
  Both.toActions step = Some actions ->
  (exists action, Both.toAction step = Some action /\ actions = [action]) \/
  (exists params next rest,
      step = Steps.ReadStep params (Some next) /\
      Both.toActions next = Some rest /\
      actions = Tagged.ReadAction params :: rest).
Proof.
  destruct step as [params [next|] | criteria s f next | effect next];
    cbn [Both.toActions].
  - destruct (Both.toActions next) as [rest|] eqn:Hn; [|discriminate].
    intros [= <-]. right. eauto 6.
  - intros [= <-]. left. eauto.
  - destruct (Both.toAction _) as [a|]; [|discriminate].
    intros [= <-]. left. eauto.
  - destruct (Both.toAction _) as [a|]; [|discriminate].
    intros [= <-]. left. eauto.
Qed.

(** Induction along a chain: a [ReadStep] with a next step, or the step
    that ends the chain. *)
Lemma Step_chain_ind (P : Steps.Step -> Prop) :
  (forall params next, P next -> P (Steps.ReadStep params (Some next))) ->
  (forall step,
      (forall params next, step <> Steps.ReadStep params (Some next)) ->
      P step) ->
  forall step, P step.
Proof.
  intros Hnext Hlast. fix IH 1.
  intros [params [next|] | criteria s f next | effect next].
  - apply Hnext, IH.
  - now apply Hlast.
  - now apply Hlast.
  - now apply Hlast.
Qed.

(** The chain and the list agree from any context that has a user. *)
Lemma toActions_populated step :
  forall actions ctx,
    Both.toActions step = Some actions ->
    is_Some (user (env ctx)) ->
    Steps.execute reader step ctx = Tagged.executeActions reader actions ctx.
Proof.
  induction step as [params next IH | step Hlast] using Step_chain_ind;
    intros actions ctx Hto Hctx.
  - cbn [Both.toActions] in Hto.
    destruct (Both.toActions next) as [rest|]; [|discriminate].
    injection Hto as <-.
    rewrite executeActions_cons, executeRead_unfold. cbn [Steps.execute].
    unfold bind at 1. cbn [set_env_user]. apply IH; [reflexivity|].
    cbn. eauto.
  - destruct (toActions_inv _ _ Hto)
      as [(action & Ha & ->) | (params & next & rest & -> & _)].
    + rewrite executeActions_single. now apply toAction_populated.
    + now destruct (Hlast params next).
Qed.

End Agreement.

(** C5, the claim as written fails for the program that only logs: the
    chain returns normally, the list throws. *)
Lemma lone_log_counterexample :
  Both.toActions (Steps.EffectStep (Steps.mkEffect (Some Kage) None) None) =
  Some [Tagged.LogAction "age"] /\
  Steps.run Usage.reader
    (Steps.EffectStep (Steps.mkEffect (Some Kage) None) None) <>
  Tagged.run Usage.reader [Tagged.LogAction "age"].
Proof. split; [reflexivity | discriminate]. Qed.

(** C5, amended. A chain of steps and the list of actions that expresses
    the same program, run with the same reader from the same context, end
    with the same outcome (normal return or the same error), the same user
    in the context and the same calls of the logger, provided the chain
    does not start by logging while the context has no user. In particular
    the two [run]s agree on every shared program whose first step is not a
    log. *)
Theorem steps_agree_with_actions (reader : ReadParams -> User)
    (step : Steps.Step) (actions : list Tagged.Action) (ctx : Context)
    (Hboth : Both.toActions step = Some actions)
    (Hlog : user (env ctx) = None -> Both.starts_with_log step = false) :
  Steps.execute reader step ctx = Tagged.executeActions reader actions ctx /\
  (Both.starts_with_log step = false ->
   Steps.run reader step = Tagged.run reader actions).
Proof.
  assert (forall c, (user (env c) = None -> Both.starts_with_log step = false) ->
            Steps.execute reader step c =
            Tagged.executeActions reader actions c) as Hany.
  { clear ctx Hlog. intros ctx Hlog.
    destruct (user (env ctx)) as [u|] eqn:Hu.
    { apply toActions_populated; [exact Hboth | rewrite Hu; eauto]. }
    specialize (Hlog eq_refl).
    destruct (toActions_inv _ _ Hboth)
      as [(action & Ha & ->) | (params & next & rest & -> & Hn & ->)].
    - rewrite executeActions_single.
      destruct step as [params next | criteria s f next | effect next].
      + destruct next; [discriminate|]. now injection Ha as <-.
      + cbn [Both.toAction] in Ha. destruct next; [discriminate|].
        destruct (Both.toAction s), (Both.toAction f); try discriminate.
        injection Ha as <-. rewrite executeMatch_unfold, Hu.
        cbn. unfold bind, env_user. now rewrite Hu.
      + cbn [Both.toAction] in Ha. destruct next; [discriminate|].
        injection Ha as <-. unfold Both.effectAction.
        cbn [Both.starts_with_log] in Hlog.
        apply bool_decide_eq_false in Hlog.
        destruct (Steps.log effect) as [key|] eqn:Hkey.
        * destruct Hlog. eauto.
        * cbn. unfold bind, env_user. now rewrite Hkey.
    - rewrite executeActions_cons, executeRead_unfold. cbn [Steps.execute].
      unfold bind at 1. cbn [set_env_user].
      apply toActions_populated; [exact Hn | cbn; eauto]. }
  split; [now apply Hany|].
  intros Hstart. apply Hany. intros _. exact Hstart.
Qed.

Lemma steps_agree_with_actions_witness :
  Both.toActions Usage.readStep = Some Usage.actions /\
  (user (env fresh_context) = None ->
   Both.starts_with_log Usage.readStep = false) /\
  Steps.execute Usage.reader Usage.readStep fresh_context =
  Tagged.executeActions Usage.reader Usage.actions fresh_context /\
  Steps.run Usage.reader Usage.readStep = Tagged.run Usage.reader Usage.actions.
Proof.
  pose proof (steps_agree_with_actions Usage.reader Usage.readStep
                Usage.actions fresh_context eq_refl (fun _ => eq_refl))
    as [Hexec Hrun].
  split; [reflexivity|]. split; [reflexivity|].
  split; [exact Hexec | apply Hrun; reflexivity].
Defined.

(** ** The callback of a match *)

(** C8. A match executed on a context with a user calls the dispatcher
    back at most once: for the slot that the outcome of the match selects,
    and not at all exactly when that slot is absent; what the match does is
    what that one action does. A [MatchStep] of the chain executes the one
    of its two steps that the comparison of the names selects. *)
Theorem match_executes_selected_slot (reader : ReadParams -> User)
    (args : Tagged.MatchCriteria)
    (callback : option (option Tagged.Action * option Tagged.Action))
    (ctx : Context) (U : User) (HU : user (env ctx) = Some U) :
  let call :=
    snd (Calls.executeAction reader (Tagged.MatchAction args callback) ctx) in
  let slot := Tagged.selected args callback U in
  (length (Calls.call_nested call) <= 1)%nat /\
  (Calls.call_nested call = [] <-> slot = None) /\
  (forall c, c ∈ Calls.call_nested call -> slot = Some (Calls.call_action c)) /\
  Tagged.executeAction reader (Tagged.MatchAction args callback) ctx =
  match slot with
  | Some next => Tagged.executeAction reader next ctx
  | None => (inr tt, ctx)
  end /\
  (forall criteria successStep failStep next,
      Steps.execute reader
        (Steps.MatchStep criteria successStep failStep next) ctx =
      Steps.execute reader
        (if String.eqb (name U) (Steps.criteria_name criteria)
         then successStep else failStep) ctx).
Proof.
  intros call slot. subst call slot.
  rewrite traced_executeMatch_unfold, executeMatch_unfold, HU.
  split; [|split; [|split; [|split]]].
  - destruct (Tagged.selected args callback U); cbn; lia.
  - now destruct (Tagged.selected args callback U).
  - destruct (Tagged.selected args callback U) as [next|]; cbn.
    + intros c ->%list_elem_of_singleton. now rewrite traced_root.
    + intros c Hc. now apply elem_of_nil in Hc.
  - reflexivity.
  - intros. cbn [Steps.execute]. unfold bind, env_user. now rewrite HU.
Qed.

Lemma match_executes_selected_slot_witness :
  user (env (mkContext (mkEnv (Some (mkUser 15 "bob" 42))) [])) =
  Some (mkUser 15 "bob" 42) /\
  Calls.call_nested
    (snd (Calls.executeAction Usage.reader
            (Tagged.MatchAction {[ "name" := VString "marcus" ]}
               (Some (Some (Tagged.LogAction "age"), None)))
            (mkContext (mkEnv (Some (mkUser 15 "bob" 42))) []))) = [].
Proof.
  split; [reflexivity|].
  apply (match_executes_selected_slot Usage.reader
           {[ "name" := VString "marcus" ]}
           (Some (Some (Tagged.LogAction "age"), None))
           (mkContext (mkEnv (Some (mkUser 15 "bob" 42))) [])
           (mkUser 15 "bob" 42) eq_refl).
  vm_compute. reflexivity.
Defined.

(** C9, the claim as written fails for a key that users inherit: every
    user has [Object] as its [constructor], so these criteria match. *)
Lemma constructor_criteria_counterexample :
  ("constructor" ∉ ["id"; "name"; "age"]) /\
  ({[ "constructor" := VObject (Intrinsic "%Object%") ]} : Tagged.MatchCriteria)
    !! "constructor" = Some (VObject (Intrinsic "%Object%")) /\
  VObject (Intrinsic "%Object%") <> VUndefined /\
  Tagged.matches {[ "constructor" := VObject (Intrinsic "%Object%") ]}
    (mkUser 15 "marcus" 42) <> false.
Proof.
  split; [|split; [|split]].
  - rewrite own_key_elem. intros [k Hk]. discriminate.
  - apply lookup_singleton_eq.
  - discriminate.
  - unfold Tagged.matches. rewrite Object_keys_singleton. cbn [forallb].
    rewrite prop_singleton. discriminate.
Qed.

(** C9, amended. When the criteria bind a key that is no property of the
    user, neither one of id, name, age nor one that users inherit, to a
    value other than [undefined], the match is false whatever the user is,
    and a match action on a context with that user goes on with [onFail]
    only. *)
Theorem foreign_key_never_matches (U : User)
    (criteria : Tagged.MatchCriteria) (key : string) (v : value)
    (Hbound : criteria !! key = Some v) (Hdefined : v <> VUndefined)
    (Hforeign : has U key = false) :
  Tagged.matches criteria U = false /\
  (forall cb, Tagged.selected criteria (Some cb) U = Tagged.onFail cb) /\
  (forall reader cb l,
      Tagged.executeAction reader (Tagged.MatchAction criteria (Some cb))
        (mkContext (mkEnv (Some U)) l) =
      match Tagged.onFail cb with
      | Some next =>
          Tagged.executeAction reader next (mkContext (mkEnv (Some U)) l)
      | None => (inr tt, mkContext (mkEnv (Some U)) l)
      end).
Proof.
  assert (Tagged.matches criteria U = false) as Hm.
  { eapply matches_false; [exact Hbound|].
    rewrite get_absent by exact Hforeign. congruence. }
  split; [exact Hm|]. split.
  - intros cb. unfold Tagged.selected. now rewrite Hm.
  - intros reader cb l. rewrite executeMatch_unfold. cbn [user env].
    unfold Tagged.selected. now rewrite Hm.
Qed.

Lemma foreign_key_never_matches_witness :
  ({[ "city" := VString "Kyiv" ]} : Tagged.MatchCriteria) !! "city" =
  Some (VString "Kyiv") /\
  VString "Kyiv" <> VUndefined /\
  has (mkUser 15 "marcus" 42) "city" = false /\
  Tagged.matches {[ "city" := VString "Kyiv" ]} (mkUser 15 "marcus" 42) = false.
Proof.
  assert (({[ "city" := VString "Kyiv" ]} : Tagged.MatchCriteria) !! "city" =
          Some (VString "Kyiv")) as Hbound by reflexivity.
  assert (VString "Kyiv" <> VUndefined) as Hdefined by discriminate.
  split; [exact Hbound|]. split; [exact Hdefined|]. split; [reflexivity|].
  apply (foreign_key_never_matches (mkUser 15 "marcus" 42)
           {[ "city" := VString "Kyiv" ]} "city" (VString "Kyiv")
           Hbound Hdefined eq_refl).
Defined.

(** ** Termination *)

Section Termination.

Variable reader : ReadParams -> User.

Lemma traced_list actions :
  forall ctx,
    fst (Calls.executeActions reader actions ctx) =
    Tagged.executeActions reader actions ctx /\
    (length (snd (Calls.executeActions reader actions ctx)) <=
     length actions)%nat /\
    Forall Calls.descends (snd (Calls.executeActions reader actions ctx)) /\
    (list_sum (map Calls.calls (snd (Calls.executeActions reader actions ctx)))
     <= list_sum (map Calls.depth actions))%nat.
Proof.
  induction actions as [|action rest IH]; intros ctx.
  - cbn. split; [reflexivity|]. split; [lia|]. split; [constructor | lia].
  - cbn [Calls.executeActions]. rewrite executeActions_cons.
    pose proof (traced_outcome reader action ctx) as Hout.
    pose proof (traced_descends reader action ctx) as Hdesc.
    pose proof (traced_calls reader action ctx) as Hcalls.
    destruct (Calls.executeAction reader action ctx) as [[out ctx'] c].
    cbn [fst snd] in *. rewrite <- Hout.
    destruct out as [e|[]].
    + cbn. split; [reflexivity|]. split; [lia|].
      split; [repeat constructor; exact Hdesc | lia].
    + specialize (IH ctx') as (IH1 & IH2 & IH3 & IH4).
      destruct (Calls.executeActions reader rest ctx') as [out cs].
      cbn [fst snd] in *. cbn [map length]. unfold list_sum in *.
      cbn [fold_right].
      split; [exact IH1|]. split; [lia|]. split; [now constructor | lia].
Qed.

End Termination.

(** C10. The dispatcher returns on every action and [run] on every list of
    actions, with a reader that returns: each call of [executeAction] under
    the first is for a child of the match above it, so an action costs at
    most as many calls as it has levels and a list at most the sum over its
    actions. *)
Theorem dispatcher_terminates (reader : ReadParams -> User) :
  (forall action ctx, exists out call,
      Calls.executeAction reader action ctx = (out, call) /\
      Tagged.executeAction reader action ctx = out /\
      Calls.call_action call = action /\
      Calls.descends call /\
      (Calls.calls call <= Calls.depth action)%nat) /\
  (forall actions, exists out calls,
      Calls.executeActions reader actions fresh_context = (out, calls) /\
      Tagged.run reader actions = out /\
      (length calls <= length actions)%nat /\
      Forall Calls.descends calls /\
      (list_sum (map Calls.calls calls) <=
       list_sum (map Calls.depth actions))%nat).
Proof.
  split.
  - intros action ctx.
    exists (fst (Calls.executeAction reader action ctx)),
           (snd (Calls.executeAction reader action ctx)).
    split; [now destruct (Calls.executeAction reader action ctx)|].
    split; [symmetry; apply traced_outcome|].
    split; [apply traced_root|].
    split; [apply traced_descends | apply traced_calls].
  - intros actions.
    destruct (traced_list reader actions fresh_context) as (H1 & H2 & H3 & H4).
    exists (fst (Calls.executeActions reader actions fresh_context)),
           (snd (Calls.executeActions reader actions fresh_context)).
    split; [now destruct (Calls.executeActions reader actions fresh_context)|].
    split; [symmetry; exact H1|]. auto.
Qed.

(** * Further properties of the two interpreters *)

Section Effects.

Variable reader : ReadParams -> User.

(** An action that throws has done nothing before. *)
Lemma thrown_unchanged action :
  forall ctx e,
    fst (Tagged.executeAction reader action ctx) = inl e ->
    snd (Tagged.executeAction reader action ctx) = ctx.
Proof.
  induction action using Action_tree_ind; intros ctx e;
    try (cbn; (discriminate || reflexivity)).
  - cbn. unfold Tagged.executeLog, bind, env_user.
    destruct (user (env ctx)) as [u|]; [|reflexivity].
    destruct (has u args); discriminate.
  - rewrite executeMatch_unfold. now destruct (user (env ctx)).
  - rewrite executeMatch_unfold.
    destruct (user (env ctx)) as [u|]; [|reflexivity].
    destruct (Tagged.selected args (Some (s, f)) u) as [next|] eqn:Hsel;
      [|discriminate].
    unfold Tagged.selected, Tagged.onSuccess, Tagged.onFail in Hsel.
    cbn [fst snd] in Hsel. destruct (Tagged.matches args u); eauto.
Qed.

(** One action calls the logger once at most. *)
Lemma logged_once action :
  forall ctx,
    logged (snd (Tagged.executeAction reader action ctx)) = logged ctx \/
    exists v,
      logged (snd (Tagged.executeAction reader action ctx)) =
      (logged ctx ++ [v])%list.
Proof.
  induction action using Action_tree_ind; intros ctx;
    try (left; reflexivity).
  - cbn. unfold Tagged.executeLog, bind, env_user.
    destruct (user (env ctx)) as [u|]; [|now left].
    destruct (has u args); right; eexists; reflexivity.
  - rewrite executeMatch_unfold. destruct (user (env ctx)); now left.
  - rewrite executeMatch_unfold.
    destruct (user (env ctx)) as [u|]; [|now left].
    destruct (Tagged.selected args (Some (s, f)) u) as [next|] eqn:Hsel;
      [|now left].
    unfold Tagged.selected, Tagged.onSuccess, Tagged.onFail in Hsel.
    cbn [fst snd] in Hsel. destruct (Tagged.matches args u); eauto.
Qed.

(** The user of the context is never taken away. *)
Lemma user_kept action :
  forall ctx,
    is_Some (user (env ctx)) ->
    is_Some (user (env (snd (Tagged.executeAction reader action ctx)))).
Proof.
  induction action using Action_tree_ind; intros ctx [u0 Hu];
    try (cbn; eauto; fail).
  - cbn. unfold Tagged.executeLog, bind, env_user. rewrite Hu.
    destruct (has u0 args); cbn; eauto.
  - rewrite executeMatch_unfold, Hu. cbn. eauto.
  - rewrite executeMatch_unfold, Hu.
    pose proof (ex_intro (fun x => user (env ctx) = Some x) u0 Hu) as Hctx.
    set (u := u0) in *.
    destruct (Tagged.selected args (Some (s, f)) u) as [next|] eqn:Hsel;
      [|exact Hctx].
    unfold Tagged.selected, Tagged.onSuccess, Tagged.onFail in Hsel.
    cbn [fst snd] in Hsel. destruct (Tagged.matches args u); eauto.
Qed.

(** With a user in the context, only an unknown type makes an action
    throw. *)
Lemma populated_returns action :
  forall ctx,
    is_Some (user (env ctx)) ->
    Shape.unknown_types action = [] ->
    fst (Tagged.executeAction reader action ctx) = inr tt.
Proof.
  induction action using Action_tree_ind; intros ctx [u Hu] Hty;
    try reflexivity.
  - cbn. unfold Tagged.executeLog, bind, env_user. rewrite Hu.
    now destruct (has u args).
  - discriminate.
  - now rewrite executeMatch_unfold, Hu.
  - rewrite executeMatch_unfold, Hu.
    cbn [Shape.unknown_types] in Hty. apply app_eq_nil in Hty as [Hs Hf].
    unfold Tagged.selected, Tagged.onSuccess, Tagged.onFail. cbn [fst snd].
    destruct (Tagged.matches args u).
    + destruct s as [a|]; [|reflexivity]. apply H; [reflexivity | eauto | exact Hs].
    + destruct f as [a|]; [|reflexivity]. apply H0; [reflexivity | eauto | exact Hf].
Qed.

Lemma populated_list_returns actions :
  forall ctx,
    is_Some (user (env ctx)) ->
    Forall (fun action => Shape.unknown_types action = []) actions ->
    fst (Tagged.executeActions reader actions ctx) = inr tt /\
    is_Some (user (env (snd (Tagged.executeActions reader actions ctx)))).
Proof.
  induction actions as [|action rest IH]; intros ctx Hu Hty.
  - now split.
  - apply Forall_cons in Hty as [Ha Hrest]. rewrite executeActions_cons.
    pose proof (populated_returns action ctx Hu Ha) as Hret.
    pose proof (user_kept action ctx Hu) as Hkept.
    destruct (Tagged.executeAction reader action ctx) as [[e|[]] ctx'];
      [discriminate|].
    now apply IH.
Qed.

Lemma unknown_types_selected args callback u next :
  Tagged.selected args callback u = Some next ->
  forall type,
    type ∈ Shape.unknown_types next ->
    type ∈ Shape.unknown_types (Tagged.MatchAction args callback).
Proof.
  unfold Tagged.selected. destruct callback as [[s f]|]; [|discriminate].
  unfold Tagged.onSuccess, Tagged.onFail. cbn [fst snd Shape.unknown_types].
  intros Hsel type Hin. apply elem_of_app.
  destruct (Tagged.matches args u); subst; cbn; auto.
Qed.

Lemma populated_error action :
  forall ctx e,
    is_Some (user (env ctx)) ->
    fst (Tagged.executeAction reader action ctx) = inl e ->
    exists type,
      e = mkError ("Unknown action type: " ++ type) /\
      type ∈ Shape.unknown_types action.
Proof.
  induction action using Action_tree_ind; intros ctx e [u Hu] He;
    try discriminate.
  - cbn in He. unfold Tagged.executeLog, bind, env_user in He.
    rewrite Hu in He. destruct (has u args); discriminate.
  - cbn in He. injection He as <-. exists type. split; [reflexivity|].
    cbn. set_solver.
  - rewrite executeMatch_unfold, Hu in He. discriminate.
  - rewrite executeMatch_unfold, Hu in He.
    destruct (Tagged.selected args (Some (s, f)) u) as [next|] eqn:Hsel;
      [|discriminate].
    assert (exists type, e = mkError ("Unknown action type: " ++ type) /\
                         type ∈ Shape.unknown_types next) as (type & -> & Hin).
    { pose proof Hsel as Hsel'.
      unfold Tagged.selected, Tagged.onSuccess, Tagged.onFail in Hsel'.
      cbn [fst snd] in Hsel'. destruct (Tagged.matches args u); eauto. }
    exists type. split; [reflexivity|].
    eapply unknown_types_selected; eauto.
Qed.

End Effects.

(** Induction over a chain of steps and the two steps of its matches. *)
Lemma Step_tree_ind (P : Steps.Step -> Prop) :
  (forall params, P (Steps.ReadStep params None)) ->
  (forall params next, P next -> P (Steps.ReadStep params (Some next))) ->
  (forall criteria s f next, P s -> P f -> P (Steps.MatchStep criteria s f next)) ->
  (forall effect next, P (Steps.EffectStep effect next)) ->
  forall step, P step.
Proof.
  intros Hread Hnext Hmatch Heffect. fix IH 1.
  intros [params [next|] | criteria s f next | effect next].
  - apply Hnext, IH.
  - apply Hread.
  - apply Hmatch; apply IH.
  - apply Heffect.
Qed.

Section Chains.

Variable reader : ReadParams -> User.

Lemma executeStep_read params next ctx :
  Steps.execute reader (Steps.ReadStep params next) ctx =
  match next with
  | Some step =>
      Steps.execute reader step
        (mkContext (mkEnv (Some (reader params))) (logged ctx))
  | None => (inr tt, mkContext (mkEnv (Some (reader params))) (logged ctx))
  end.
Proof. now destruct next. Qed.

Lemma executeStep_match criteria s f next ctx :
  Steps.execute reader (Steps.MatchStep criteria s f next) ctx =
  match user (env ctx) with
  | None => (inl MissingUserError, ctx)
  | Some u =>
      Steps.execute reader
        (if String.eqb (name u) (Steps.criteria_name criteria) then s else f)
        ctx
  end.
Proof.
  cbn [Steps.execute]. unfold bind, env_user. now destruct (user (env ctx)).
Qed.

Lemma executeStep_effect effect next ctx :
  Steps.execute reader (Steps.EffectStep effect next) ctx =
  match Steps.log effect, user (env ctx) with
  | Some key, Some u =>
      (inr tt, mkContext (env ctx) (logged ctx ++ [field u key])%list)
  | _, _ => (inr tt, ctx)
  end.
Proof.
  cbn [Steps.execute]. unfold bind, env_user.
  destruct (Steps.log effect), (user (env ctx)); reflexivity.
Qed.

(** With a user in the context a chain returns, and with a user. *)
Lemma populated_chain_returns step :
  forall ctx,
    is_Some (user (env ctx)) ->
    fst (Steps.execute reader step ctx) = inr tt /\
    is_Some (user (env (snd (Steps.execute reader step ctx)))).
Proof.
  induction step as [params | params next IH | criteria s f next IHs IHf
                    | effect next] using Step_tree_ind; intros ctx [u Hu].
  - rewrite executeStep_read. cbn. eauto.
  - rewrite executeStep_read. apply IH. cbn. eauto.
  - rewrite executeStep_match, Hu.
    destruct (String.eqb _ _); [apply IHs | apply IHf]; eauto.
  - rewrite executeStep_effect, Hu.
    destruct (Steps.log effect); cbn; rewrite Hu; eauto.
Qed.

(** A chain logs once at most, and what it logs is a field of the user it
    ends with. *)
Lemma chain_logged step :
  forall ctx,
    logged (snd (Steps.execute reader step ctx)) = logged ctx \/
    exists u key,
      user (env (snd (Steps.execute reader step ctx))) = Some u /\
      logged (snd (Steps.execute reader step ctx)) =
      (logged ctx ++ [field u key])%list.
Proof.
  induction step as [params | params next IH | criteria s f next IHs IHf
                    | effect next] using Step_tree_ind; intros ctx.
  - rewrite executeStep_read. now left.
  - rewrite executeStep_read.
    apply (IH (mkContext (mkEnv (Some (reader params))) (logged ctx))).
  - rewrite executeStep_match. destruct (user (env ctx)) as [u|]; [|now left].
    destruct (String.eqb _ _); [apply IHs | apply IHf].
  - rewrite executeStep_effect.
    destruct (Steps.log effect) as [key|]; [|now left].
    destruct (user (env ctx)) as [u|] eqn:Hu; [|now left].
    right. exists u, key. cbn. eauto.
Qed.

End Chains.

(** X1. An action that throws has had no effect: the context after the
    throw, user and logger calls alike, is the context it started from. *)
Theorem thrown_action_leaves_context (reader : ReadParams -> User)
    (action : Tagged.Action) (ctx ctx' : Context) (e : Error)
    (Hthrow : Tagged.executeAction reader action ctx = (inl e, ctx')) :
  ctx' = ctx.
Proof.
  pose proof (thrown_unchanged reader action ctx e) as H.
  rewrite Hthrow in H. exact (H eq_refl).
Qed.

Lemma thrown_action_leaves_context_witness :
  Tagged.executeAction Usage.reader
    (Tagged.MatchAction ∅ (Some (Some (Tagged.OtherAction "save"), None)))
    (mkContext (mkEnv (Some (mkUser 1 "bob" 30))) [VNumber 7]) =
  (inl (mkError "Unknown action type: save"),
   mkContext (mkEnv (Some (mkUser 1 "bob" 30))) [VNumber 7]) /\
  mkContext (mkEnv (Some (mkUser 1 "bob" 30))) [VNumber 7] =
  mkContext (mkEnv (Some (mkUser 1 "bob" 30))) [VNumber 7].
Proof.
  assert (Tagged.executeAction Usage.reader
            (Tagged.MatchAction ∅ (Some (Some (Tagged.OtherAction "save"), None)))
            (mkContext (mkEnv (Some (mkUser 1 "bob" 30))) [VNumber 7]) =
          (inl (mkError "Unknown action type: save"),
           mkContext (mkEnv (Some (mkUser 1 "bob" 30))) [VNumber 7])) as H
    by (vm_compute; reflexivity).
  split; [exact H|].
  exact (thrown_action_leaves_context _ _ _ _ _ H).
Defined.

(** X2. A list of actions that throws stopped at the first action that
    threw: the actions before it returned, the context is the one they
    left, and no action after it ran. *)
Theorem failed_list_stops_at_first_throw (reader : ReadParams -> User)
    (actions : list Tagged.Action) (ctx ctx' : Context) (e : Error)
    (Hthrow : Tagged.executeActions reader actions ctx = (inl e, ctx')) :
  exists pre action post,
    actions = (pre ++ action :: post)%list /\
    Tagged.executeActions reader pre ctx = (inr tt, ctx') /\
    Tagged.executeAction reader action ctx' = (inl e, ctx').
Proof.
  revert ctx Hthrow. induction actions as [|a rest IH]; intros ctx Hthrow.
  - discriminate.
  - rewrite executeActions_cons in Hthrow.
    destruct (Tagged.executeAction reader a ctx) as [[e0|[]] c] eqn:Ha.
    + injection Hthrow as -> ->.
      pose proof (thrown_unchanged reader a ctx e) as Hsame.
      rewrite Ha in Hsame. cbn in Hsame. specialize (Hsame eq_refl). subst ctx'.
      exists [], a, rest. now rewrite Ha.
    + destruct (IH c Hthrow) as (pre & action & post & -> & Hpre & Hact).
      exists (a :: pre), action, post. split; [reflexivity|].
      split; [|exact Hact]. now rewrite executeActions_cons, Ha.
Qed.

Lemma failed_list_stops_at_first_throw_witness :
  Tagged.executeActions Usage.reader
    [Tagged.NoopAction; Tagged.LogAction "age";
     Tagged.ReadAction (mkReadParams 15)] fresh_context =
  (inl MissingUserError, fresh_context) /\
  exists pre action post,
    [Tagged.NoopAction; Tagged.LogAction "age";
     Tagged.ReadAction (mkReadParams 15)] = (pre ++ action :: post)%list /\
    Tagged.executeActions Usage.reader pre fresh_context =
    (inr tt, fresh_context) /\
    Tagged.executeAction Usage.reader action fresh_context =
    (inl MissingUserError, fresh_context).
Proof.
  split; [reflexivity|].
  apply (failed_list_stops_at_first_throw Usage.reader
           [Tagged.NoopAction; Tagged.LogAction "age";
            Tagged.ReadAction (mkReadParams 15)]
           fresh_context fresh_context MissingUserError).
  reflexivity.
Defined.

(** X3. Running a list made of two lists is running the first and then,
    from the context it leaves, the second; when the first throws the
    second is not run. *)
Theorem actions_run_in_sequence (reader : ReadParams -> User)
    (pre post : list Tagged.Action) (ctx : Context) :
  Tagged.executeActions reader (pre ++ post) ctx =
  match Tagged.executeActions reader pre ctx with
  | (inl e, ctx') => (inl e, ctx')
  | (inr _, ctx') => Tagged.executeActions reader post ctx'
  end /\
  (forall e ctx',
      Tagged.executeActions reader pre ctx = (inl e, ctx') ->
      Tagged.executeActions reader (pre ++ post) ctx = (inl e, ctx')) /\
  Tagged.run reader (pre ++ post) =
  match Tagged.run reader pre with
  | (inl e, ctx') => (inl e, ctx')
  | (inr _, ctx') => Tagged.executeActions reader post ctx'
  end.
Proof.
  split; [apply executeActions_app|]. split.
  - intros e ctx' Hpre. now rewrite executeActions_app, Hpre.
  - unfold Tagged.run. apply executeActions_app.
Qed.

Lemma actions_run_in_sequence_witness :
  Tagged.executeActions Usage.reader [Tagged.LogAction "age"] fresh_context =
  (inl MissingUserError, fresh_context) /\
  Tagged.executeActions Usage.reader
    ([Tagged.LogAction "age"] ++ [Tagged.ReadAction (mkReadParams 15)])
    fresh_context =
  (inl MissingUserError, fresh_context).
Proof.
  assert (Tagged.executeActions Usage.reader [Tagged.LogAction "age"]
            fresh_context = (inl MissingUserError, fresh_context)) as Hpre
    by reflexivity.
  split; [exact Hpre|].
  destruct (actions_run_in_sequence Usage.reader [Tagged.LogAction "age"]
              [Tagged.ReadAction (mkReadParams 15)] fresh_context)
    as (_ & Habort & _).
  exact (Habort _ _ Hpre).
Defined.

(** X4. An action calls the logger once at most, whatever it nests; a list
    of actions calls it at most once for each of its actions, and only
    adds to the calls made before. *)
Theorem logger_called_once_per_action (reader : ReadParams -> User) :
  (forall action ctx,
      logged (snd (Tagged.executeAction reader action ctx)) = logged ctx \/
      exists v,
        logged (snd (Tagged.executeAction reader action ctx)) =
        (logged ctx ++ [v])%list) /\
  (forall actions ctx, exists vs,
      logged (snd (Tagged.executeActions reader actions ctx)) =
      (logged ctx ++ vs)%list /\
      (length vs <= length actions)%nat) /\
  (forall actions,
      (length (logged (snd (Tagged.run reader actions))) <= length actions)%nat).
Proof.
  assert (forall actions ctx, exists vs,
      logged (snd (Tagged.executeActions reader actions ctx)) =
      (logged ctx ++ vs)%list /\
      (length vs <= length actions)%nat) as Hlist.
  { induction actions as [|a rest IH]; intros ctx.
    - exists []. cbn. now rewrite app_nil_r.
    - rewrite executeActions_cons.
      pose proof (logged_once reader a ctx) as Ha.
      destruct (Tagged.executeAction reader a ctx) as [[e|[]] c]; cbn in Ha;
        cbv iota beta.
      + cbn [snd]. destruct Ha as [-> | [v ->]].
        * exists []. cbn. rewrite app_nil_r. split; [reflexivity | lia].
        * exists [v]. cbn. split; [reflexivity | lia].
      + destruct (IH c) as (vs & -> & Hlen).
        destruct Ha as [-> | [v ->]].
        * exists vs. split; [reflexivity | cbn; lia].
        * exists (v :: vs). rewrite <- app_assoc. split; [reflexivity | cbn; lia]. }
  split; [apply logged_once|]. split; [exact Hlist|].
  intros actions. unfold Tagged.run.
  destruct (Hlist actions fresh_context) as (vs & -> & Hlen). exact Hlen.
Qed.

(** X5. Once the context has a user, actions with no unknown type never
    throw and never take the user away: a list of them returns normally,
    and so does [run] on such a list behind a first read. *)
Theorem populated_actions_return (reader : ReadParams -> User)
    (actions : list Tagged.Action)
    (Htyped : Forall (fun action => Shape.unknown_types action = []) actions) :
  (forall ctx,
      is_Some (user (env ctx)) ->
      fst (Tagged.executeActions reader actions ctx) = inr tt /\
      is_Some (user (env (snd (Tagged.executeActions reader actions ctx))))) /\
  (forall params,
      fst (Tagged.run reader (Tagged.ReadAction params :: actions)) = inr tt).
Proof.
  split.
  - intros ctx Hu. now apply populated_list_returns.
  - intros params. unfold Tagged.run.
    rewrite executeActions_cons, executeRead_unfold.
    apply populated_list_returns; [cbn; eauto | exact Htyped].
Qed.

Lemma populated_actions_return_witness :
  Forall (fun action => Shape.unknown_types action = [])
    [Tagged.LogAction "name";
     Tagged.MatchAction ∅ (Some (None, Some (Tagged.LogAction "id")))] /\
  fst (Tagged.run Usage.reader
         [Tagged.ReadAction (mkReadParams 3); Tagged.LogAction "name";
          Tagged.MatchAction ∅ (Some (None, Some (Tagged.LogAction "id")))]) =
  inr tt.
Proof.
  assert (Forall (fun action => Shape.unknown_types action = [])
            [Tagged.LogAction "name";
             Tagged.MatchAction ∅ (Some (None, Some (Tagged.LogAction "id")))])
    as Htyped by (repeat constructor).
  split; [exact Htyped|].
  apply (populated_actions_return Usage.reader _ Htyped).
Defined.

(** X6. The errors of the dispatcher: an action throws the missing-user
    error only when it is itself a match or a log and the context has no
    user; any other error is the unknown-type error for a type that occurs
    in the tree of the action. *)
Theorem errors_of_an_action (reader : ReadParams -> User)
    (action : Tagged.Action) (ctx : Context) (e : Error)
    (Hthrow : fst (Tagged.executeAction reader action ctx) = inl e) :
  (e = MissingUserError /\ user (env ctx) = None /\
   Tagged.needs_user action = true) \/
  (exists type,
      e = mkError ("Unknown action type: " ++ type) /\
      type ∈ Shape.unknown_types action).
Proof.
  destruct (user (env ctx)) as [u|] eqn:Hu.
  { right. eapply populated_error; [|exact Hthrow]. rewrite Hu. eauto. }
  destruct action as [args | args callback | args | | type].
  - discriminate.
  - rewrite executeMatch_unfold, Hu in Hthrow. injection Hthrow as <-. now left.
  - cbn in Hthrow. unfold Tagged.executeLog, bind, env_user in Hthrow.
    rewrite Hu in Hthrow. injection Hthrow as <-. now left.
  - discriminate.
  - right. exists type. cbn in Hthrow. injection Hthrow as <-.
    split; [reflexivity | cbn; set_solver].
Qed.

Lemma errors_of_an_action_witness :
  fst (Tagged.executeAction Usage.reader
         (Tagged.MatchAction ∅ (Some (Some (Tagged.OtherAction "save"), None)))
         (mkContext (mkEnv (Some (mkUser 1 "bob" 30))) [])) =
  inl (mkError "Unknown action type: save") /\
  exists type,
    mkError "Unknown action type: save" =
    mkError ("Unknown action type: " ++ type) /\
    type ∈ Shape.unknown_types
      (Tagged.MatchAction ∅ (Some (Some (Tagged.OtherAction "save"), None))).
Proof.
  assert (fst (Tagged.executeAction Usage.reader
            (Tagged.MatchAction ∅ (Some (Some (Tagged.OtherAction "save"), None)))
            (mkContext (mkEnv (Some (mkUser 1 "bob" 30))) [])) =
          inl (mkError "Unknown action type: save")) as H
    by (vm_compute; reflexivity).
  split; [exact H|].
  destruct (errors_of_an_action _ _ _ _ H) as [(Habs & _) | Hex].
  - discriminate Habs.
  - exact Hex.
Defined.

(** X7. A noop can be dropped from a list of actions, wherever it stands,
    and the empty list returns at once on an untouched context. *)
Theorem noop_is_neutral (reader : ReadParams -> User)
    (pre post : list Tagged.Action) (ctx : Context) :
  Tagged.executeActions reader (pre ++ Tagged.NoopAction :: post) ctx =
  Tagged.executeActions reader (pre ++ post) ctx /\
  Tagged.executeActions reader [] ctx = (inr tt, ctx).
Proof.
  split; [|reflexivity].
  rewrite !executeActions_app.
  destruct (Tagged.executeActions reader pre ctx) as [[e|[]] c]; reflexivity.
Qed.

(** X8. Criteria are a conjunction: two criteria objects with no key in
    common match together exactly when each of them matches. *)
Theorem matches_union (c1 c2 : Tagged.MatchCriteria) (u : User)
    (Hdisjoint : c1 ##ₘ c2) :
  Tagged.matches (c1 ∪ c2) u = Tagged.matches c1 u && Tagged.matches c2 u.
Proof.
  apply eq_true_iff_eq. rewrite andb_true_iff, !matches_spec. split.
  - intros H. split; intros key v Hkv; apply H.
    + apply lookup_union_Some_l. exact Hkv.
    + apply lookup_union_Some; auto.
  - intros [H1 H2] key v Hkv.
    apply lookup_union_Some in Hkv as [Hkv | Hkv]; eauto.
Qed.

Lemma matches_union_witness :
  ({[ "name" := VString "marcus" ]} : Tagged.MatchCriteria)
    ##ₘ {[ "age" := VNumber 41 ]} /\
  Tagged.matches ({[ "name" := VString "marcus" ]} ∪ {[ "age" := VNumber 41 ]})
    (mkUser 15 "marcus" 42) =
  Tagged.matches {[ "name" := VString "marcus" ]} (mkUser 15 "marcus" 42)
  && Tagged.matches {[ "age" := VNumber 41 ]} (mkUser 15 "marcus" 42).
Proof.
  assert (({[ "name" := VString "marcus" ]} : Tagged.MatchCriteria)
            ##ₘ {[ "age" := VNumber 41 ]}) as Hdisjoint
    by (apply map_disjoint_singleton_l, lookup_singleton_ne; discriminate).
  split; [exact Hdisjoint|].
  apply (matches_union _ _ (mkUser 15 "marcus" 42) Hdisjoint).
Defined.

(** X9. Fewer criteria match more users: a user that matches a criteria
    object matches every object made of some of its entries. *)
Theorem matches_fewer_criteria (c1 c2 : Tagged.MatchCriteria) (u : User)
    (Hsub : c1 ⊆ c2) (Hmatch : Tagged.matches c2 u = true) :
  Tagged.matches c1 u = true.
Proof.
  apply matches_spec. intros key v Hkv.
  eapply matches_spec; [exact Hmatch|].
  eapply lookup_weaken; eauto.
Qed.

Lemma matches_fewer_criteria_witness :
  ({[ "name" := VString "marcus" ]} : Tagged.MatchCriteria)
    ⊆ <[ "age" := VNumber 42 ]> {[ "name" := VString "marcus" ]} /\
  Tagged.matches (<[ "age" := VNumber 42 ]> {[ "name" := VString "marcus" ]})
    (mkUser 15 "marcus" 42) = true /\
  Tagged.matches {[ "name" := VString "marcus" ]} (mkUser 15 "marcus" 42) = true.
Proof.
  assert (({[ "name" := VString "marcus" ]} : Tagged.MatchCriteria)
            ⊆ <[ "age" := VNumber 42 ]> {[ "name" := VString "marcus" ]})
    as Hsub by (apply insert_subseteq, lookup_singleton_ne; discriminate).
  assert (Tagged.matches
            (<[ "age" := VNumber 42 ]> {[ "name" := VString "marcus" ]})
            (mkUser 15 "marcus" 42) = true) as Hmatch
    by (vm_compute; reflexivity).
  split; [exact Hsub|]. split; [exact Hmatch|].
  exact (matches_fewer_criteria _ _ _ Hsub Hmatch).
Defined.

(** X10. A match looks at the user only through the keys of its criteria:
    two users with the same values at those keys get the same outcome and
    the same slot of the callback. *)
Theorem matches_reads_criteria_keys_only (criteria : Tagged.MatchCriteria)
    (u1 u2 : User)
    (Hsame : forall key, is_Some (criteria !! key) -> get u1 key = get u2 key) :
  Tagged.matches criteria u1 = Tagged.matches criteria u2 /\
  (forall callback,
      Tagged.selected criteria callback u1 =
      Tagged.selected criteria callback u2).
Proof.
  assert (Tagged.matches criteria u1 = Tagged.matches criteria u2) as Hm.
  { apply eq_true_iff_eq. rewrite !matches_spec.
    split; intros H key v Hkv; [rewrite <- Hsame | rewrite Hsame]; eauto. }
  split; [exact Hm|].
  intros callback. unfold Tagged.selected. now rewrite Hm.
Qed.

Lemma matches_reads_criteria_keys_only_witness :
  (forall key,
      is_Some (({[ "name" := VString "marcus" ]} : Tagged.MatchCriteria) !! key) ->
      get (mkUser 15 "marcus" 42) key = get (mkUser 16 "marcus" 7) key) /\
  Tagged.matches {[ "name" := VString "marcus" ]} (mkUser 15 "marcus" 42) =
  Tagged.matches {[ "name" := VString "marcus" ]} (mkUser 16 "marcus" 7).
Proof.
  assert (forall key,
      is_Some (({[ "name" := VString "marcus" ]} : Tagged.MatchCriteria) !! key) ->
      get (mkUser 15 "marcus" 42) key = get (mkUser 16 "marcus" 7) key) as Hsame.
  { intros key [v Hv]. apply lookup_singleton_Some in Hv as [<- _].
    reflexivity. }
  split; [exact Hsame|].
  apply (matches_reads_criteria_keys_only _ _ _ Hsame).
Defined.

(** X11. A chain of steps calls the logger once at most, however long it
    is, and what it logs is a field of the user the context ends with; a
    [run] leaves one logged value at most. *)
Theorem chain_logs_once_at_most (reader : ReadParams -> User)
    (step : Steps.Step) :
  (forall ctx,
      logged (snd (Steps.execute reader step ctx)) = logged ctx \/
      exists u key,
        user (env (snd (Steps.execute reader step ctx))) = Some u /\
        logged (snd (Steps.execute reader step ctx)) =
        (logged ctx ++ [field u key])%list) /\
  (length (logged (snd (Steps.run reader step))) <= 1)%nat.
Proof.
  split; [apply chain_logged|].
  unfold Steps.run.
  destruct (chain_logged reader step fresh_context) as [-> | (u & key & _ & ->)];
    cbn; lia.
Qed.

(** X12. A chain throws in one case only: its first step is a [MatchStep]
    and the context has no user; the error is then the missing-user error.
    So [run] fails exactly on the chains that start with a match. *)
Theorem chain_throws_at_leading_match_only (reader : ReadParams -> User)
    (step : Steps.Step) (ctx : Context) (e : Error) :
  fst (Steps.execute reader step ctx) = inl e <->
  user (env ctx) = None /\
  (exists criteria s f next, step = Steps.MatchStep criteria s f next) /\
  e = MissingUserError.
Proof.
  split.
  - intros Hthrow. destruct (user (env ctx)) as [u|] eqn:Hu.
    { destruct (populated_chain_returns reader step ctx) as [Hret _].
      - rewrite Hu. eauto.
      - rewrite Hret in Hthrow. discriminate. }
    destruct step as [params next | criteria s f next | effect next].
    + rewrite executeStep_read in Hthrow. destruct next as [step|].
      * destruct (populated_chain_returns reader step
                    (mkContext (mkEnv (Some (reader params))) (logged ctx)))
          as [Hret _]; [cbn; eauto|].
        rewrite Hret in Hthrow. discriminate.
      * discriminate.
    + rewrite executeStep_match, Hu in Hthrow. injection Hthrow as <-.
      split; [reflexivity|]. split; [eauto 6 | reflexivity].
    + rewrite executeStep_effect, Hu in Hthrow.
      destruct (Steps.log effect); discriminate.
  - intros (Hu & (criteria & s & f & next & ->) & ->).
    now rewrite executeStep_match, Hu.
Qed.

(** X13. Only a [ReadStep] goes on to its next step: the steps hung behind
    the match and effect steps of a chain, at any depth, can be removed
    without changing what the chain does; a step set with [setNext] behind
    a [MatchStep] or an [EffectStep] is never executed, and one set behind
    a [ReadStep] replaces the step that was there. *)
Theorem setNext_continues_reads_only (reader : ReadParams -> User)
    (step : Steps.Step) (ctx : Context) :
  Steps.execute reader (Reach.live step) ctx = Steps.execute reader step ctx /\
  (forall criteria s f old,
      Steps.execute reader
        (fst (Steps.setNext (Steps.MatchStep criteria s f old) step)) ctx =
      Steps.execute reader (Steps.MatchStep criteria s f None) ctx) /\
  (forall effect old,
      Steps.execute reader
        (fst (Steps.setNext (Steps.EffectStep effect old) step)) ctx =
      Steps.execute reader (Steps.EffectStep effect None) ctx) /\
  (forall params old,
      Steps.execute reader
        (fst (Steps.setNext (Steps.ReadStep params old) step)) ctx =
      Steps.execute reader step
        (snd (Steps.execute reader (Steps.ReadStep params None) ctx))).
Proof.
  split; [|split; [|split]]; try (intros; cbn [Steps.setNext fst]).
  - revert ctx.
    induction step as [params | params next IH | criteria s f next IHs IHf
                      | effect next] using Step_tree_ind; intros ctx;
      cbn [Reach.live option_map].
    + reflexivity.
    + rewrite !executeStep_read. apply IH.
    + rewrite !executeStep_match. destruct (user (env ctx)); [|reflexivity].
      destruct (String.eqb _ _); [apply IHs | apply IHf].
    + now rewrite !executeStep_effect.
  - now rewrite !executeStep_match.
  - now rewrite !executeStep_effect.
  - now rewrite !executeStep_read.
Qed.

(** * 6-either.ts *)

(** X14. [chain] with [right] obeys the three monad laws: [right] is a
    unit of [chain] on both sides and chains can be regrouped. *)
Theorem either_chain_laws {L R T U : Type} (m : Either.Either L R) (a : R)
    (f : R -> Either.Either L T) (g : T -> Either.Either L U) :
  Either.chain (Either.right a) f = f a /\
  Either.chain m Either.right = m /\
  Either.chain (Either.chain m f) g =
  Either.chain m (fun x => Either.chain (f x) g).
Proof.
  destruct m as [[e|v]]; repeat split.
Qed.

(** X15. [map] keeps the shape: mapping the identity changes nothing,
    mapping twice is mapping the composition, and [map] is [chain] with the
    result put back in a [right]. *)
Theorem either_map_laws {L R T U : Type} (m : Either.Either L R)
    (f : R -> T) (g : T -> U) :
  Either.map m (fun x => x) = m /\
  Either.map (Either.map m f) g = Either.map m (fun x => g (f x)) /\
  Either.map m f = Either.chain m (fun x => Either.right (f x)) /\
  Either.isRight (Either.map m f) = Either.isRight m.
Proof.
  destruct m as [[e|v]]; repeat split.
Qed.

(** X16. A left value stops the pipeline: [map] and [chain] never apply
    their function to it and give back the same left, whatever the function
    is; [getOrElse] gives the default. *)
Theorem either_left_short_circuits {L R T : Type} (m : Either.Either L R)
    (Hleft : Either.isLeft m = true) :
  exists e,
    m = Either.left e /\
    (forall f : R -> T, Either.map m f = Either.left e) /\
    (forall f : R -> Either.Either L T, Either.chain m f = Either.left e) /\
    (forall d, Either.getOrElse m d = d) /\
    Either.isRight m = false.
Proof.
  destruct m as [[e|v]]; [|discriminate].
  exists e. repeat split.
Qed.

Lemma either_left_short_circuits_witness :
  Either.isLeft (Either.left "Invalid number" : Either.Either string Z) = true /\
  exists e,
    (Either.left "Invalid number" : Either.Either string Z) = Either.left e /\
    (forall f : Z -> Z,
        Either.map (Either.left "Invalid number") f = Either.left e) /\
    (forall f : Z -> Either.Either string Z,
        Either.chain (Either.left "Invalid number") f = Either.left e) /\
    (forall d : Z,
        Either.getOrElse (Either.left "Invalid number" : Either.Either string Z) d
        = d) /\
    Either.isRight (Either.left "Invalid number" : Either.Either string Z) = false.
Proof.
  split; [reflexivity|].
  apply (either_left_short_circuits
           (Either.left "Invalid number" : Either.Either string Z) eq_refl).
Defined.

(** X17. [fold] is the way out of an [Either]: folding with the two
    factories rebuilds the value, folding after [map] is folding with the
    composed function, and [getOrElse], [isRight], [isLeft] are folds. *)
Theorem either_fold_laws {L R T U : Type} (m : Either.Either L R)
    (f : R -> T) (leftFn : L -> U) (rightFn : T -> U) (d : R) :
  Either.fold m Either.left Either.right = m /\
  Either.fold (Either.map m f) leftFn rightFn =
  Either.fold m leftFn (fun x => rightFn (f x)) /\
  Either.getOrElse m d = Either.fold m (fun _ => d) (fun x => x) /\
  Either.isRight m = Either.fold m (fun _ => false) (fun _ => true) /\
  Either.isLeft m = negb (Either.isRight m).
Proof.
  destruct m as [[e|v]]; repeat split.
Qed.

(** * 5-future.js *)

(** X18. Futures compose without running: forking a mapped future is
    forking the future with the function put before [resolve]; mapping
    twice, chaining after a map and chaining twice can be regrouped. *)
Theorem future_composition_laws {World E A B C : Type}
    (fut : Future.Future World E A) (f : A -> B) (g : B -> C)
    (k : B -> Future.Future World E C) (h : A -> Future.Future World E B) :
  (forall reject resolve,
      Future.fork (Future.map fut f) reject resolve =
      Future.fork fut reject (fun value => resolve (f value))) /\
  Future.map (Future.map fut f) g = Future.map fut (fun x => g (f x)) /\
  Future.chain (Future.map fut f) k = Future.chain fut (fun x => k (f x)) /\
  Future.chain (Future.chain fut h) k =
  Future.chain fut (fun x => Future.chain (h x) k) /\
  Future.map fut (fun x => x) = fut.
Proof.
  destruct fut as [computation]. repeat split.
Qed.

(** X19. The pipeline of the file, [read.map(f).chain(write)] on two
    futurified functions: when the read calls back with an error, [onError]
    gets it and the write is never started; when it calls back with a
    result, the write runs on the mapped result and its own error or
    success decides. *)
Theorem future_pipeline {World Args1 Args2 E A B C : Type}
    (read : Args1 -> (option E -> A -> World -> World) -> World -> World)
    (write : Args2 -> (option E -> C -> World -> World) -> World -> World)
    (args : Args1) (f : A -> B) (target : B -> Args2)
    (onError : E -> World -> World) (onSuccess : C -> World -> World)
    (w : World) :
  let pipeline :=
    Future.chain (Future.map (Future.futurify read args) f)
      (fun text => Future.futurify write (target text)) in
  (forall e dummy,
      (forall cb, read args cb = cb (Some e) dummy) ->
      Future.fork pipeline onError onSuccess w = onError e w) /\
  (forall text,
      (forall cb, read args cb = cb None text) ->
      (forall e dummy,
          (forall cb, write (target (f text)) cb = cb (Some e) dummy) ->
          Future.fork pipeline onError onSuccess w = onError e w) /\
      (forall result,
          (forall cb, write (target (f text)) cb = cb None result) ->
          Future.fork pipeline onError onSuccess w = onSuccess result w)).
Proof.
  intros pipeline. subst pipeline. cbn. split.
  - intros e dummy Hread. now rewrite Hread.
  - intros text Hread. rewrite Hread. split.
    + intros e dummy Hwrite. now rewrite Hwrite.
    + intros result Hwrite. now rewrite Hwrite.
Qed.

Lemma future_pipeline_witness :
  Future.fork
    (Future.chain
       (Future.map
          (Future.futurify
             (fun (_ : string) (cb : option string -> string -> list string -> list string) =>
                cb None "text") "future.js")
          (fun text => text ++ "!"))
       (fun text =>
          Future.futurify
            (fun (file : string) (cb : option string -> unit -> list string -> list string) =>
               cb None tt) text))
    (fun e w => (w ++ [String.append "FS error: " e])%list)
    (fun _ w => (w ++ ["Done"])%list) [] = ["Done"].
Proof.
  pose proof (future_pipeline
    (fun (_ : string) (cb : option string -> string -> list string -> list string) =>
       cb None "text")
    (fun (file : string) (cb : option string -> unit -> list string -> list string) =>
       cb None tt)
    "future.js" (fun text => text ++ "!") (fun text => text)
    (fun e w => (w ++ [String.append "FS error: " e])%list)
    (fun _ w => (w ++ ["Done"])%list) []) as [_ H].
  destruct (H "text" (fun cb => eq_refl)) as [_ Hok].
  exact (Hok tt (fun cb => eq_refl)).
Defined.

(** * The chains of handlers and of loggers *)

Lemma processRequest_not_noHandler kind request :
  Support.processRequest kind request <> Support.noHandler request.
Proof. destruct kind; discriminate. Qed.

(** X20. The first handler of the chain that can handle a request answers
    it, and the handlers behind it are not asked; when none can, the answer
    is the no-handler message. *)
Theorem handle_first_capable (this : Support.SupportHandler)
    (request : Support.SupportRequest) :
  Support.handle this request =
  match List.find (fun kind => Support.canHandle kind request)
          (Support.kinds this) with
  | Some kind => Support.processRequest kind request
  | None => Support.noHandler request
  end.
Proof.
  revert this. fix IH 1. intros [kind [next|]]; cbn.
  - destruct (Support.canHandle kind request); [reflexivity | apply IH].
  - now destruct (Support.canHandle kind request).
Qed.

(** X21. Who answers in the demo chain junior, senior, technical lead,
    manager: critical requests go to the manager whatever their type; high
    ones to the technical lead when technical; low general ones to junior
    support; the other low or medium, general or technical ones to senior
    support; and every other request gets the no-handler message. *)
Theorem demo_chain_dispatch (request : Support.SupportRequest) :
  Support.handle Support.demo_chain request =
  match Support.priority request with
  | Support.critical => Support.processRequest Support.Manager request
  | Support.high =>
      if String.eqb (Support.type request) "technical"
      then Support.processRequest Support.TechnicalLead request
      else Support.noHandler request
  | Support.medium =>
      if String.eqb (Support.type request) "technical"
         || String.eqb (Support.type request) "general"
      then Support.processRequest Support.SeniorSupport request
      else Support.noHandler request
  | Support.low =>
      if String.eqb (Support.type request) "general"
      then Support.processRequest Support.JuniorSupport request
      else if String.eqb (Support.type request) "technical"
      then Support.processRequest Support.SeniorSupport request
      else Support.noHandler request
  end /\
  (Support.handle Support.demo_chain request = Support.noHandler request <->
   Support.priority request <> Support.critical /\
   Support.type request <> "technical" /\
   (Support.priority request = Support.high \/
    Support.type request <> "general")).
Proof.
  destruct request as [type priority description customerId].
  unfold Support.demo_chain. cbn [Support.handle Support.canHandle
    Support.priority Support.type].
  destruct priority; cbn [Support.is_priority andb orb];
    destruct (String.eqb_spec type "technical") as [Ht|Ht];
    destruct (String.eqb_spec type "general") as [Hg|Hg];
    cbn [andb orb];
    try (subst; discriminate);
    (split; [reflexivity|]);
    (split;
     [ intros H; try (now apply processRequest_not_noHandler in H);
       repeat split; (discriminate || auto)
     | intros (Hc & Ht' & Hor); try reflexivity; try congruence;
       try (destruct Hor; congruence) ]).
Qed.

(** X22. The store and the chain agree: when the handlers reachable from
    an address spell a chain, [handle] on the store answers what [handle]
    on the chain answers; so do the four handlers of the demo once the
    three chained [setNext] calls have linked them. *)
Theorem handle_at_follows_chain (fuel : nat) (store : gmap nat Support.Object)
    (this : nat) (chain : Support.SupportHandler)
    (request : Support.SupportRequest)
    (Hload : Support.load fuel store this = Some chain) :
  Support.handle_at fuel store this request =
  Some (Support.handle chain request).
Proof.
  revert store this chain request Hload.
  induction fuel as [|fuel IH]; intros store this chain request; [discriminate|].
  cbn [Support.load Support.handle_at].
  destruct (store !! this) as [[kind [next|]]|]; [| |discriminate]; cbn.
  - destruct (Support.load fuel store next) as [rest|] eqn:Hrest; [|discriminate].
    intros [= <-]. cbn. destruct (Support.canHandle kind request); [reflexivity|].
    now apply IH.
  - intros [= <-]. cbn. now destruct (Support.canHandle kind request).
Qed.

Lemma handle_at_follows_chain_witness :
  Support.load 4 (fst Support.demo) (snd Support.demo) =
  Some Support.demo_chain /\
  Support.handle_at 4 (fst Support.demo) (snd Support.demo)
    (Support.mkRequest "billing" Support.critical
       "Payment system completely down!" "CUST004") =
  Some (Support.handle Support.demo_chain
          (Support.mkRequest "billing" Support.critical
             "Payment system completely down!" "CUST004")).
Proof.
  assert (Support.load 4 (fst Support.demo) (snd Support.demo) =
          Some Support.demo_chain) as Hload by (vm_compute; reflexivity).
  split; [exact Hload|].
  exact (handle_at_follows_chain 4 _ _ _ _ Hload).
Defined.

(** X23. A handler set as its own next makes a loop: a request it cannot
    handle is passed around for ever and no amount of fuel gets an
    answer. *)
Theorem self_next_never_answers (store : gmap nat Support.Object)
    (this : nat) (o : Support.Object) (request : Support.SupportRequest)
    (Hthis : store !! this = Some o)
    (Hcannot : Support.canHandle (Support.kind o) request = false) :
  forall fuel,
    Support.handle_at fuel (fst (Support.setNext this this store)) this request
    = None.
Proof.
  induction fuel as [|fuel IH]; [reflexivity|].
  cbn [Support.handle_at Support.setNext fst] in *.
  rewrite lookup_alter_eq, Hthis. cbn. rewrite Hcannot. exact IH.
Qed.

Lemma self_next_never_answers_witness :
  fst (Support.new Support.Manager ∅) !! 0%nat =
  Some (Support.mkObject Support.Manager None) /\
  Support.handle_at 100
    (fst (Support.setNext 0 0 (fst (Support.new Support.Manager ∅)))) 0
    (Support.mkRequest "feature" Support.low "Can we add dark mode?" "CUST005")
  = None.
Proof.
  assert (fst (Support.new Support.Manager ∅) !! 0%nat =
          Some (Support.mkObject Support.Manager None)) as Hthis
    by (vm_compute; reflexivity).
  split; [exact Hthis|].
  exact (self_next_never_answers _ 0%nat _
           (Support.mkRequest "feature" Support.low "Can we add dark mode?"
              "CUST005") Hthis eq_refl 100%nat).
Defined.

Lemma sublist_map {A B} (f : A -> B) (l k : list A) :
  sublist l k -> sublist (List.map f l) (List.map f k).
Proof. induction 1; cbn; now constructor. Qed.

(** The lines a chain writes, by the levels of its loggers. *)
Lemma log_lines (this : Logging.Logger) (level : Logging.LogLevel)
    (message : string) (console : list string) :
  Logging.log this level message console =
  (console ++
   List.map (fun logger => Logging.written (fst logger) message)
     (List.filter
        (fun logger =>
           Z.leb (Logging.level_number (snd logger)) (Logging.level_number level))
        (Logging.loggers this)))%list.
Proof.
  revert this console. fix IH 1. intros [kind threshold [next|]] console;
    cbn [Logging.log Logging.loggers from_option List.filter fst snd].
  - rewrite IH.
    destruct (Z.leb _ _); cbn [List.map]; [|reflexivity].
    now rewrite <- app_assoc.
  - destruct (Z.leb _ _); cbn [List.map List.filter]; [reflexivity|].
    now rewrite app_nil_r.
Qed.

(** X24. A message reaches every logger of the chain, and exactly those
    whose level is at most the level of the message write it, in the order
    of the chain, after the lines already on the console. *)
Theorem log_writes_by_level (this : Logging.Logger) (level : Logging.LogLevel)
    (message : string) (console : list string) :
  Logging.log this level message console =
  (console ++
   List.map (fun logger => Logging.written (fst logger) message)
     (List.filter
        (fun logger =>
           Z.leb (Logging.level_number (snd logger)) (Logging.level_number level))
        (Logging.loggers this)))%list /\
  length (Logging.log this level message console) =
  (length console +
   length (List.filter
             (fun logger =>
                Z.leb (Logging.level_number (snd logger))
                  (Logging.level_number level))
             (Logging.loggers this)))%nat.
Proof.
  split; [apply log_lines|].
  rewrite log_lines, length_app. f_equal. apply length_map.
Qed.

(** X25. A more severe message is written by at least the same loggers:
    the lines that a chain writes for a level are among the lines it writes
    for any higher level, and for ERROR every logger writes. *)
Theorem log_monotone_in_level (this : Logging.Logger)
    (l1 l2 : Logging.LogLevel) (message : string)
    (Hle : Logging.level_number l1 <= Logging.level_number l2) :
  sublist (Logging.log this l1 message []) (Logging.log this l2 message []) /\
  Logging.log this Logging.ERROR message [] =
  List.map (fun logger => Logging.written (fst logger) message)
    (Logging.loggers this).
Proof.
  rewrite !log_lines. cbn [app]. split.
  - apply sublist_map.
    induction (Logging.loggers this) as [|[kind threshold] rest IH];
      [constructor|].
    cbn [List.filter snd].
    destruct (Z.leb_spec (Logging.level_number threshold)
                (Logging.level_number l1)) as [H1|H1].
    + destruct (Z.leb_spec (Logging.level_number threshold)
                  (Logging.level_number l2)) as [H2|H2]; [|lia].
      now constructor.
    + destruct (Z.leb _ _); [constructor|]; exact IH.
  - f_equal. induction (Logging.loggers this) as [|[kind threshold] rest IH];
      [reflexivity|].
    cbn [List.filter snd].
    replace (Z.leb _ _) with true by (now destruct threshold).
    now rewrite IH.
Qed.

Lemma log_monotone_in_level_witness :
  Logging.level_number Logging.INFO <= Logging.level_number Logging.WARNING /\
  sublist
    (Logging.log
       (Logging.mkLogger Logging.ConsoleLogger Logging.INFO
          (Some (Logging.mkLogger Logging.FileLogger Logging.WARNING
             (Some (Logging.mkLogger Logging.ErrorLogger Logging.ERROR None)))))
       Logging.INFO "m" [])
    (Logging.log
       (Logging.mkLogger Logging.ConsoleLogger Logging.INFO
          (Some (Logging.mkLogger Logging.FileLogger Logging.WARNING
             (Some (Logging.mkLogger Logging.ErrorLogger Logging.ERROR None)))))
       Logging.WARNING "m" []).
Proof.
  assert (Logging.level_number Logging.INFO <=
          Logging.level_number Logging.WARNING) as Hle by (cbn; lia).
  split; [exact Hle|].
  apply (log_monotone_in_level _ Logging.INFO Logging.WARNING "m" Hle).
Defined.

(** * 2-do.js *)

(** X26. The pipeline of 2-do.js is the program of the two interpreters:
    on a user, binding the file's second function and running it with the
    logger calls the logger as the match action of 3.1-execute.ts does on a
    context with that user, and for every id the whole pipeline logs what
    [run] logs on the actions of that file with a read of that id. *)
Theorem do_pipeline_is_the_action_program (u : User) (id : Z)
    (calls : list value) :
  match DoMonad.run (DoMonad.bind (DoMonad.Do u) DoMonad.effect)
          DoMonad.console_log with
  | inr done => done calls
  | inl _ => calls
  end =
  logged (snd (Tagged.executeAction DoMonad.read
                 (Tagged.MatchAction {[ "name" := VString "marcus" ]}
                    (Some (Some (Tagged.LogAction "age"), Some Tagged.NoopAction)))
                 (mkContext (mkEnv (Some u)) calls))) /\
  DoMonad.program (mkReadParams id) [] =
  logged (snd (Tagged.run DoMonad.read
                 [Tagged.ReadAction (mkReadParams id);
                  Tagged.MatchAction {[ "name" := VString "marcus" ]}
                    (Some (Some (Tagged.LogAction "age"), Some Tagged.NoopAction))])).
Proof.
  assert (forall v l,
    match DoMonad.run (DoMonad.bind (DoMonad.Do v) DoMonad.effect)
            DoMonad.console_log with
    | inr done => done l
    | inl _ => l
    end =
    logged (snd (Tagged.executeAction DoMonad.read
                   (Tagged.MatchAction {[ "name" := VString "marcus" ]}
                      (Some (Some (Tagged.LogAction "age"), Some Tagged.NoopAction)))
                   (mkContext (mkEnv (Some v)) l)))) as Hmatch.
  { intros v l. rewrite executeMatch_unfold. cbn [user env].
    unfold Tagged.selected, Tagged.matches.
    rewrite Object_keys_singleton. cbn [forallb]. rewrite prop_singleton.
    cbn. rewrite andb_true_r.
    now destruct (String.eqb (name v) "marcus"). }
  split; [apply Hmatch|].
  unfold DoMonad.program, Tagged.run.
  rewrite executeActions_cons, executeRead_unfold. cbv iota beta.
  rewrite executeActions_single. cbn [logged fresh_context].
  exact (Hmatch (DoMonad.read (mkReadParams id)) []).
Qed.
